(** * Shallow embedding of the rate-limit, retry, pagination, URL and
      streaming core of the venice-ai-api-sdk-rust client library.

    Integers keep the widths of the Rust code: [u16]/[u32]/[u64]/[i64]
    values are [Z] with their wrap-around written out where the code can
    overflow; [f64] values are the kernel's binary64 floats ([PrimFloat]);
    strings are [string] (a Rust [String] is a byte sequence, one [ascii]
    per byte). *)

From Stdlib Require Import ZArith NArith List String Ascii Bool Lia.
From Stdlib Require Import Floats.
Import ListNotations.

#[local] Set Warnings "-register-all".
Local Open Scope bool_scope.
Local Open Scope string_scope.

(** ** Rust's [Result] *)

Inductive result (A E : Type) : Type :=
| Ok (a : A)
| Err (e : E).
Arguments Ok {A E} a.
Arguments Err {A E} e.

(** ** src/error.rs : [VeniceError] *)

Inductive VeniceError : Type :=
| ApiError (status : Z) (code : string) (message : string)
| HttpError (msg : string)
| ParseError (msg : string)
| InvalidInput (msg : string)
| RateLimitExceeded (msg : string)
| AuthenticationFailed (msg : string)
| InvalidWebhookSignature (msg : string)
| Unknown (msg : string).

Definition VeniceResult (A : Type) : Type := result A VeniceError.

(** ** Machine integers *)

Definition two_pow (w : Z) : Z := Z.pow 2 w.

(** [x as u64] / wrapping [u64] arithmetic. *)
Definition wrap_u64 (x : Z) : Z := Z.modulo x (two_pow 64).

(** [x as i64] / wrapping [i64] arithmetic (two's complement). *)
Definition wrap_i64 (x : Z) : Z :=
  let m := Z.modulo x (two_pow 64) in
  if Z.ltb m (two_pow 63) then m else Z.sub m (two_pow 64).

(** [x as u32] / wrapping [u32] arithmetic. *)
Definition wrap_u32 (x : Z) : Z := Z.modulo x (two_pow 32).

(** ** Header maps (reqwest::header::HeaderMap)

    Header names are stored normalised to lower case, as [HeaderName]
    does; [get] returns the first value stored under the name. *)

Definition HeaderMap : Type := list (string * string).

Fixpoint header_get (h : HeaderMap) (name : string) : option string :=
  match h with
  | [] => None
  | (k, v) :: rest => if String.eqb k name then Some v else header_get rest name
  end.

(** [HeaderValue::to_str]: succeeds when every byte is visible ASCII
    (0x20..0x7e) or a horizontal tab. *)
Fixpoint visible_ascii (s : string) : bool :=
  match s with
  | EmptyString => true
  | String c r =>
      let n := N_of_ascii c in
      ((N.leb 32 n && N.ltb n 127) || N.eqb n 9) && visible_ascii r
  end.

Definition header_to_str (v : string) : option string :=
  if visible_ascii v then Some v else None.

(** [str::parse] for an unsigned integer type whose values lie below
    [bound]: an optional leading ['+'], then at least one decimal digit;
    overflow is an error. *)
Definition digit_val (c : ascii) : option Z :=
  let n := Z.of_N (N_of_ascii c) in
  if Z.leb 48 n && Z.leb n 57 then Some (Z.sub n 48) else None.

Fixpoint parse_digits (s : string) (acc : Z) : option Z :=
  match s with
  | EmptyString => Some acc
  | String c r =>
      match digit_val c with
      | Some d => parse_digits r (Z.add (Z.mul acc 10) d)
      | None => None
      end
  end.

Definition parse_unsigned (bound : Z) (s : string) : option Z :=
  let digits := match s with
                | String "+"%char r => r
                | _ => s
                end in
  match digits with
  | EmptyString => None
  | _ =>
      match parse_digits digits 0 with
      | Some v => if Z.ltb v bound then Some v else None
      | None => None
      end
  end.

Definition parse_u32 : string -> option Z := parse_unsigned (two_pow 32).
Definition parse_u64 : string -> option Z := parse_unsigned (two_pow 64).

(** Decimal rendering of a non-negative integer ([Display] for [u32]). *)
Fixpoint dec_aux (fuel : nat) (n : Z) (acc : string) : string :=
  match fuel with
  | O => acc
  | S f =>
      let acc' := String (ascii_of_N (Z.to_N (Z.add 48 (Z.modulo n 10)))) acc in
      if Z.ltb n 10 then acc' else dec_aux f (Z.div n 10) acc'
  end.

Definition dec (n : Z) : string := dec_aux 24 n EmptyString.

(** ** [RateLimitInfo] (src/error.rs) *)

Record RateLimitInfo : Type := {
  limit_requests : option Z;      (* u32 *)
  remaining_requests : option Z;  (* u32 *)
  reset_requests : option Z;      (* u64 *)
  limit_tokens : option Z;        (* u32 *)
  remaining_tokens : option Z;    (* u32 *)
  reset_tokens : option Z;        (* u64 *)
  balance_vcu : option float;     (* f64 *)
  balance_usd : option float      (* f64 *)
}.

Definition unwrap_or {A} (o : option A) (d : A) : A :=
  match o with Some a => a | None => d end.

(** [impl Display for RateLimitInfo]. *)
Definition show_rate_limit_info (i : RateLimitInfo) : string :=
  "Rate Limit Info: " ++ dec (unwrap_or (remaining_requests i) 0%Z) ++ "/"
  ++ dec (unwrap_or (limit_requests i) 0%Z) ++ " requests, "
  ++ dec (unwrap_or (remaining_tokens i) 0%Z) ++ "/"
  ++ dec (unwrap_or (limit_tokens i) 0%Z) ++ " tokens".

(** [RateLimitInfo::is_rate_limited]. *)
Definition info_is_rate_limited (i : RateLimitInfo) : bool :=
  match remaining_requests i with Some r => Z.eqb r 0 | None => false end
  || match remaining_tokens i with Some t => Z.eqb t 0 | None => false end.

(** Minimal [serde_json::Value]. *)
Inductive Value : Type :=
| VNull
| VBool (b : bool)
| VNumber (lit : string)
| VString (s : string)
| VArray (l : list Value)
| VObject (fields : list (string * Value)).

Fixpoint assoc_get {A} (l : list (string * A)) (k : string) : option A :=
  match l with
  | [] => None
  | (k', v) :: r => if String.eqb k' k then Some v else assoc_get r k
  end.

(** [Value::get] with a string index: only objects have keys. *)
Definition value_get (v : Value) (k : string) : option Value :=
  match v with VObject fs => assoc_get fs k | _ => None end.

Definition value_as_object (v : Value) : option (list (string * Value)) :=
  match v with VObject fs => Some fs | _ => None end.

Definition value_as_str (v : Value) : option string :=
  match v with VString s => Some s | _ => None end.

(** A received HTTP response: status code (u16), headers, and the body as
    read from the connection ([Err] when reading the body fails). *)
Record Response : Type := {
  status : Z;
  headers : HeaderMap;
  body : result string string
}.

(** [StatusCode::is_success]. *)
Definition is_success (s : Z) : bool := Z.leb 200 s && Z.ltb s 300.

Section Transport.
(** The parts of serde / the standard library the transport calls:
    [str::parse::<f64>], [serde_json::from_str::<Value>], the [Display]
    of a [Value], and the target type's deserializer. *)
Variable parse_f64 : string -> option float.
Variable parse_value : string -> option Value.
Variable value_to_string : Value -> string.
Variable T : Type.
Variable parse_json : string -> result T string.

(** [parse_header]: get, [to_str], then [parse]. *)
Definition parse_header {A} (parse : string -> option A)
    (h : HeaderMap) (name : string) : option A :=
  match header_get h name with
  | Some v => match header_to_str v with
              | Some s => parse s
              | None => None
              end
  | None => None
  end.

(** [RateLimitInfo::from_headers]. *)
Definition from_headers (h : HeaderMap) : RateLimitInfo := {|
  limit_requests := parse_header parse_u32 h "x-ratelimit-limit-requests";
  remaining_requests := parse_header parse_u32 h "x-ratelimit-remaining-requests";
  reset_requests := parse_header parse_u64 h "x-ratelimit-reset-requests";
  limit_tokens := parse_header parse_u32 h "x-ratelimit-limit-tokens";
  remaining_tokens := parse_header parse_u32 h "x-ratelimit-remaining-tokens";
  reset_tokens := parse_header parse_u64 h "x-ratelimit-reset-tokens";
  balance_vcu := parse_header parse_f64 h "x-venice-balance-vcu";
  balance_usd := parse_header parse_f64 h "x-venice-balance-usd" |}.

(** The error-body classification shared by the [process_*] functions;
    [fallback] is the message of the last branch. *)
Definition classify_error_body (status_code : Z) (error_text : string)
    (fallback : string) : VeniceError :=
  let error_response :=
    match parse_value error_text with
    | Some v => v
    | None => VObject [("error", VObject [("message", VString error_text)])]
    end in
  let '(code, message) :=
    match value_get error_response "error" with
    | Some error_obj =>
        match value_as_object error_obj with
        | Some fs =>
            (unwrap_or (match assoc_get fs "code" with
                        | Some c => value_as_str c | None => None end) "unknown",
             unwrap_or (match assoc_get fs "message" with
                        | Some m => value_as_str m | None => None end) "Unknown error")
        | None =>
            match value_as_str error_obj with
            | Some error_str => ("api_error", error_str)
            | None => ("unknown",
                       "Unexpected error format: " ++ value_to_string error_response)
            end
        end
    | None => ("unknown", fallback)
    end in
  ApiError status_code code message.

(** [process_response] (src/http/response_processor.rs). *)
Definition process_response (response : Response)
    : VeniceResult (T * RateLimitInfo) :=
  let rate_limit_info := from_headers (headers response) in
  let st := status response in
  if Z.eqb st 429 then
    Err (RateLimitExceeded
           ("Rate limit exceeded: " ++ show_rate_limit_info rate_limit_info))
  else if negb (is_success st) then
    let error_text := match body response with Ok s => s | Err _ => EmptyString end in
    Err (classify_error_body st error_text
           ("Unexpected error response: " ++ error_text))
  else
    match body response with
    | Err e => Err (ParseError ("Failed to parse response: " ++ e))
    | Ok text =>
        match parse_json text with
        | Ok data => Ok (data, rate_limit_info)
        | Err e => Err (ParseError ("Failed to parse response: " ++ e))
        end
    end.

(** The snapshot the caller obtains from a call's result. *)
Definition snapshot_of (r : VeniceResult (T * RateLimitInfo)) : option RateLimitInfo :=
  match r with
  | Ok (_, info) => Some info
  | Err _ => None
  end.
End Transport.

(** ** src/rate_limit.rs *)

(** A wall-clock reading: [SystemTime::now().duration_since(UNIX_EPOCH)]
    in whole seconds, [None] when the clock is before the epoch (the
    [Err] case). *)
Definition Clock : Type := option Z.

Record RateLimiterConfig : Type := {
  auto_wait : bool;
  max_wait_time : Z   (* u64, seconds *)
}.

Definition default_rate_limiter_config : RateLimiterConfig :=
  {| auto_wait := true; max_wait_time := 60 |}.

(** The snapshot fields whose names the limiter's own fields reuse. *)
Definition snapshot_remaining_requests (i : RateLimitInfo) : option Z :=
  remaining_requests i.
Definition snapshot_remaining_tokens (i : RateLimitInfo) : option Z :=
  remaining_tokens i.

Module RateLimiter.

(** The atomic fields, read and written one at a time ([Relaxed]). *)
Record t : Type := {
  max_requests : Z;          (* AtomicU32 *)
  remaining_requests : Z;    (* AtomicU32 *)
  reset_time_requests : Z;   (* AtomicI64 *)
  max_tokens : Z;            (* AtomicU32 *)
  remaining_tokens : Z;      (* AtomicU32 *)
  reset_time_tokens : Z;     (* AtomicI64 *)
  config : RateLimiterConfig
}.

(** [RateLimiter::with_config]. *)
Definition with_config (c : RateLimiterConfig) : t := {|
  max_requests := 0; remaining_requests := 1; reset_time_requests := 0;
  max_tokens := 0; remaining_tokens := 1; reset_time_tokens := 0;
  config := c |}.

Definition new : t := with_config default_rate_limiter_config.

Definition set_max_requests (s : t) (v : Z) : t :=
  {| max_requests := v; remaining_requests := remaining_requests s;
     reset_time_requests := reset_time_requests s; max_tokens := max_tokens s;
     remaining_tokens := remaining_tokens s; reset_time_tokens := reset_time_tokens s;
     config := config s |}.
Definition set_remaining_requests (s : t) (v : Z) : t :=
  {| max_requests := max_requests s; remaining_requests := v;
     reset_time_requests := reset_time_requests s; max_tokens := max_tokens s;
     remaining_tokens := remaining_tokens s; reset_time_tokens := reset_time_tokens s;
     config := config s |}.
Definition set_reset_time_requests (s : t) (v : Z) : t :=
  {| max_requests := max_requests s; remaining_requests := remaining_requests s;
     reset_time_requests := v; max_tokens := max_tokens s;
     remaining_tokens := remaining_tokens s; reset_time_tokens := reset_time_tokens s;
     config := config s |}.
Definition set_max_tokens (s : t) (v : Z) : t :=
  {| max_requests := max_requests s; remaining_requests := remaining_requests s;
     reset_time_requests := reset_time_requests s; max_tokens := v;
     remaining_tokens := remaining_tokens s; reset_time_tokens := reset_time_tokens s;
     config := config s |}.
Definition set_remaining_tokens (s : t) (v : Z) : t :=
  {| max_requests := max_requests s; remaining_requests := remaining_requests s;
     reset_time_requests := reset_time_requests s; max_tokens := max_tokens s;
     remaining_tokens := v; reset_time_tokens := reset_time_tokens s;
     config := config s |}.
Definition set_reset_time_tokens (s : t) (v : Z) : t :=
  {| max_requests := max_requests s; remaining_requests := remaining_requests s;
     reset_time_requests := reset_time_requests s; max_tokens := max_tokens s;
     remaining_tokens := remaining_tokens s; reset_time_tokens := v;
     config := config s |}.

Definition store_if {A} (o : option A) (set : t -> A -> t) (s : t) : t :=
  match o with Some v => set s v | None => s end.

(** [update_from_response]: the six [if let Some(..)] stores in order;
    [reset as i64] reinterprets the [u64], and the token reset is
    converted to an absolute time [now + reset] (wrapping [u64]
    addition, as in a release build) when the clock can be read. *)
Definition update_from_response (clock : Clock) (info : RateLimitInfo) (s : t) : t :=
  let s := store_if (limit_requests info) set_max_requests s in
  let s := store_if (snapshot_remaining_requests info) set_remaining_requests s in
  let s := store_if (reset_requests info)
             (fun s reset => set_reset_time_requests s (wrap_i64 reset)) s in
  let s := store_if (limit_tokens info) set_max_tokens s in
  let s := store_if (snapshot_remaining_tokens info) set_remaining_tokens s in
  match reset_tokens info with
  | Some reset =>
      match clock with
      | Some now => set_reset_time_tokens s (wrap_i64 (wrap_u64 (Z.add now reset)))
      | None => s
      end
  | None => s
  end.

Definition auto_wait_enabled (s : t) : bool := auto_wait (config s).

(** [is_rate_limited]. *)
Definition is_rate_limited (s : t) : bool :=
  Z.eqb (remaining_requests s) 0 || Z.eqb (remaining_tokens s) 0.

(** [time_until_reset]: the earliest reset lying strictly in the future. *)
Definition time_until_reset (clock : Clock) (s : t) : option Z :=
  match clock with
  | None => None
  | Some secs =>
      let now := wrap_i64 secs in
      let rtr := reset_time_requests s in
      let rtt := reset_time_tokens s in
      let earliest :=
        if Z.ltb now rtr then Some (wrap_u64 (wrap_i64 (Z.sub rtr now))) else None in
      if Z.ltb now rtt then
        let tokens_reset := wrap_u64 (wrap_i64 (Z.sub rtt now)) in
        match earliest with
        | Some time => Some (Z.min time tokens_reset)
        | None => Some tokens_reset
        end
      else earliest
  end.

Definition msg_no_auto_wait : string :=
  "Rate limit exceeded. Consider enabling auto_wait or implementing backoff.".
Definition msg_unknown_reset : string :=
  "Rate limit exceeded and reset time is unknown.".

(** [acquire]: the result, and the duration of the [sleep] it awaits
    ([None] when it does not sleep). *)
Definition acquire (clock : Clock) (s : t) : VeniceResult unit * option Z :=
  if negb (is_rate_limited s) then (Ok tt, None)
  else if negb (auto_wait (config s)) then
    (Err (RateLimitExceeded msg_no_auto_wait), None)
  else
    match time_until_reset clock s with
    | Some wait_time =>
        let wait_time := Z.min wait_time (max_wait_time (config s)) in
        (Ok tt, if Z.ltb 0 wait_time then Some wait_time else None)
    | None => (Err (RateLimitExceeded msg_unknown_reset), None)
    end.

(** A sequence of responses applied in order, each with the clock
    reading at the time it is applied. *)
Definition apply_all (s : t) (us : list (Clock * RateLimitInfo)) : t :=
  fold_left (fun s '(c, i) => update_from_response c i s) us s.

End RateLimiter.

(** Range of the limiter's atomics: [u32] counters, [i64] reset times. *)
Definition in_u32 (x : Z) : bool := Z.leb 0 x && Z.ltb x (two_pow 32).
Definition in_u64 (x : Z) : bool := Z.leb 0 x && Z.ltb x (two_pow 64).
Definition in_i64 (x : Z) : bool := Z.leb (Z.opp (two_pow 63)) x && Z.ltb x (two_pow 63).

Definition limiter_in_range (s : RateLimiter.t) : bool :=
  in_u32 (RateLimiter.max_requests s) && in_u32 (RateLimiter.remaining_requests s)
  && in_i64 (RateLimiter.reset_time_requests s) && in_u32 (RateLimiter.max_tokens s)
  && in_u32 (RateLimiter.remaining_tokens s) && in_i64 (RateLimiter.reset_time_tokens s).

Definition opt_in (p : Z -> bool) (o : option Z) : bool :=
  match o with Some x => p x | None => true end.

(** The integer fields of a snapshot lie in the ranges of their Rust
    types. *)
Definition info_in_range (i : RateLimitInfo) : bool :=
  opt_in in_u32 (limit_requests i) && opt_in in_u32 (remaining_requests i)
  && opt_in in_u64 (reset_requests i) && opt_in in_u32 (limit_tokens i)
  && opt_in in_u32 (remaining_tokens i) && opt_in in_u64 (reset_tokens i).

(** ** f64 conversions and [powi] *)

(** [x as i32]. *)
Definition wrap_i32 (x : Z) : Z :=
  let m := Z.modulo x (two_pow 32) in
  if Z.ltb m (two_pow 31) then m else Z.sub m (two_pow 32).

(** [n as f64] for an integer: round to nearest, ties to even. *)
Definition int_to_f64 (n : Z) : float :=
  SF2Prim (SpecFloat.binary_normalize 53 1024 n 0 false).

(** [x as u64] for an [f64]: truncation toward zero, saturating at both
    ends, NaN to 0. *)
Definition f64_to_u64 (x : float) : Z :=
  match Prim2SF x with
  | S754_zero _ => 0
  | S754_infinity false => Z.sub (two_pow 64) 1
  | S754_infinity true => 0
  | S754_nan => 0
  | S754_finite true _ _ => 0
  | S754_finite false m e =>
      let v := if Z.leb 0 e then Z.mul (Zpos m) (Z.pow 2 e)
               else Z.shiftr (Zpos m) (Z.opp e) in
      Z.min v (Z.sub (two_pow 64) 1)
  end.

(** [f64::powi], lowered to the runtime's square-and-multiply loop
    ([__powidf2]): [r *= a] on each set bit of [|b|], [a *= a] between
    bits, and [1 / r] for a negative exponent. *)
Fixpoint powi_loop (fuel : nat) (a r : float) (b : Z) : float :=
  match fuel with
  | O => r
  | S f =>
      let r := if Z.odd b then PrimFloat.mul r a else r in
      let b := Z.div b 2 in
      if Z.eqb b 0 then r else powi_loop f (PrimFloat.mul a a) r b
  end.

Definition powi (a : float) (b : Z) : float :=
  let r := powi_loop 33 a PrimFloat.one (Z.abs b) in
  if Z.ltb b 0 then PrimFloat.div PrimFloat.one r else r.

(** [f64::min]: a NaN argument yields the other one. *)
Definition f64_min (x y : float) : float :=
  if PrimFloat.is_nan x then y
  else if PrimFloat.is_nan y then x
  else if PrimFloat.ltb y x then y else x.

(** ** src/retry.rs *)

Record RetryConfig : Type := {
  max_retries : Z;        (* u32 *)
  initial_delay_ms : Z;   (* u64 *)
  max_delay_ms : Z;       (* u64 *)
  backoff_factor : float; (* f64 *)
  add_jitter : bool
}.

Definition default_retry_config : RetryConfig := {|
  max_retries := 3; initial_delay_ms := 500; max_delay_ms := 10000;
  backoff_factor := 2.0%float; add_jitter := true |}.

(** [RetryConfig::calculate_delay], in milliseconds; [r] is the value of
    [rand::random::<f64>()] (in [0, 1)), used only with jitter. *)
Definition calculate_delay (cfg : RetryConfig) (attempt : Z) (r : float) : Z :=
  let base_delay :=
    f64_to_u64 (PrimFloat.mul (int_to_f64 (initial_delay_ms cfg))
                              (powi (backoff_factor cfg) (wrap_i32 attempt))) in
  let delay := Z.min base_delay (max_delay_ms cfg) in
  if add_jitter cfg then
    let jitter := PrimFloat.add 0.5%float r in
    f64_to_u64 (PrimFloat.mul (int_to_f64 delay) jitter)
  else delay.

(** [is_retryable_error]. *)
Definition is_retryable_error (e : VeniceError) : bool :=
  match e with
  | HttpError _ => true
  | RateLimitExceeded _ => true
  | ApiError st _ _ => Z.leb 500 st && Z.ltb st 600
  | _ => false
  end.

Section WithRetry.
(** The wrapped operation may keep state between calls (a closure over
    shared data): it is a state transformer on a world [W]. *)
Variable W A : Type.
Variable f : W -> W * VeniceResult A.
Variable cfg : RetryConfig.
(** The random draw used for the delay after failed attempt [n]. *)
Variable draw : Z -> float.

(** The [loop] of [with_retry]: [fuel] bounds the number of calls of
    [f] (the loop itself need not terminate); the result carries the
    outcome, the final world, the number of calls of [f] made and the
    sleeps awaited, in milliseconds.  [attempt += 1] on the [u32]
    counter wraps, as in a release build. *)
Fixpoint with_retry_loop (fuel : nat) (attempt : Z) (w : W) (calls : nat)
    (sleeps : list Z) : option (VeniceResult A * W * nat * list Z) :=
  match fuel with
  | O => None
  | S fuel' =>
      let '(w', r) := f w in
      match r with
      | Ok x => Some (Ok x, w', S calls, sleeps)
      | Err error =>
          let attempt := wrap_u32 (Z.add attempt 1) in
          if Z.ltb (max_retries cfg) attempt || negb (is_retryable_error error) then
            Some (Err error, w', S calls, sleeps)
          else
            with_retry_loop fuel' attempt w' (S calls)
              (app sleeps [calculate_delay cfg attempt (draw attempt)])
      end
  end.

(** [with_retry f config]. *)
Definition with_retry (fuel : nat) (w : W) : option (VeniceResult A * W * nat * list Z) :=
  with_retry_loop fuel 0 w O [].
End WithRetry.

(** The same configuration with [add_jitter] off: [calculate_delay]
    then returns the clamped [delay] that the jitter multiplies. *)
Definition without_jitter (cfg : RetryConfig) : RetryConfig := {|
  max_retries := max_retries cfg; initial_delay_ms := initial_delay_ms cfg;
  max_delay_ms := max_delay_ms cfg; backoff_factor := backoff_factor cfg;
  add_jitter := false |}.

(** ** src/pagination.rs *)

Record PaginationParams : Type := {
  limit : option Z;       (* u32 *)
  cursor : option string
}.

(** The [PaginationInfo] trait a page response implements. *)
Class PaginationInfo (T R : Type) : Type := {
  get_data : R -> list T;
  resp_has_more : R -> bool;
  next_cursor : R -> option string
}.

Record PaginatedResponse (T : Type) : Type := {
  data : list T;
  page_has_more : bool;
  page_next_cursor : option string;
  rate_limit_info : RateLimitInfo
}.
Arguments data {T}.
Arguments page_has_more {T}.
Arguments page_next_cursor {T}.
Arguments rate_limit_info {T}.

(** The mutable part of a [GenericPaginator]: its parameters and its
    [has_more] flag ([fetch_page] is a section variable below). *)
Record GenericPaginator : Type := {
  params : PaginationParams;
  has_more : bool
}.

(** [GenericPaginator::new]. *)
Definition paginator_new (p : PaginationParams) : GenericPaginator :=
  {| params := p; has_more := true |}.

Section Paginator.
Variables T R W : Type.
Context `{PaginationInfo T R}.
(** [fetch_page], an [Fn] closure that may keep state: a state
    transformer on a world [W]. *)
Variable fetch_page : W -> PaginationParams -> W * VeniceResult (R * RateLimitInfo).

(** One call of [next_page]: its result, the paginator afterwards, the
    world afterwards, and the parameters of the [fetch_page] calls made
    (none or one). *)
Definition next_page (p : GenericPaginator) (w : W)
    : VeniceResult (option (PaginatedResponse T)) * GenericPaginator * W
      * list PaginationParams :=
  if negb (has_more p) then (Ok None, p, w, [])
  else
    let '(w', r) := fetch_page w (params p) in
    match r with
    | Err e => (Err e, p, w', [params p])
    | Ok (response, info) =>
        let d := get_data response in
        let hm := resp_has_more response in
        let nc := next_cursor response in
        let p' :=
          match nc with
          | Some c => {| params := {| limit := limit (params p); cursor := Some c |};
                         has_more := hm |}
          | None => {| params := params p; has_more := false |}
          end in
        (Ok (Some {| data := d; page_has_more := hm; page_next_cursor := nc;
                     rate_limit_info := info |}), p', w', [params p])
    end.

(** [next_page] called [k] times in a row. *)
Fixpoint next_pages (k : nat) (p : GenericPaginator) (w : W)
    : list (VeniceResult (option (PaginatedResponse T))) * GenericPaginator * W
      * list PaginationParams :=
  match k with
  | O => ([], p, w, [])
  | S k' =>
      let '(r, p1, w1, l1) := next_page p w in
      let '(rs, p2, w2, l2) := next_pages k' p1 w1 in
      (r :: rs, p2, w2, app l1 l2)
  end.

(** [all_pages]: [while let Some(page) = self.next_page().await? {...}];
    [fuel] bounds the number of iterations (the loop need not end). *)
Fixpoint all_pages_loop (fuel : nat) (all_items : list T) (p : GenericPaginator)
    (w : W) (log : list PaginationParams)
    : option (VeniceResult (list T) * GenericPaginator * W * list PaginationParams) :=
  match fuel with
  | O => None
  | S fuel' =>
      let '(r, p', w', l) := next_page p w in
      match r with
      | Err e => Some (Err e, p', w', app log l)
      | Ok None => Some (Ok all_items, p', w', app log l)
      | Ok (Some page) =>
          let all_items := app all_items (data page) in
          if negb (page_has_more page) then Some (Ok all_items, p', w', app log l)
          else all_pages_loop fuel' all_items p' w' (app log l)
      end
  end.

Definition all_pages (fuel : nat) (p : GenericPaginator) (w : W) :=
  all_pages_loop fuel [] p w [].

(** The draining loop as the specification words it: call [next_page]
    until it yields no page, collecting the pages; the first error is
    returned as is and the pages collected so far are dropped. *)
Fixpoint drain_pages (fuel : nat) (p : GenericPaginator) (w : W)
    : option (VeniceResult (list (PaginatedResponse T)) * GenericPaginator * W
              * list PaginationParams) :=
  match fuel with
  | O => None
  | S fuel' =>
      let '(r, p', w', l) := next_page p w in
      match r with
      | Err e => Some (Err e, p', w', l)
      | Ok None => Some (Ok [], p', w', l)
      | Ok (Some page) =>
          match drain_pages fuel' p' w' with
          | Some (Ok pages, p'', w'', l') => Some (Ok (page :: pages), p'', w'', app l l')
          | Some (Err e, p'', w'', l') => Some (Err e, p'', w'', app l l')
          | None => None
          end
      end
  end.
End Paginator.

Arguments next_page {T R W _} fetch_page p w.
Arguments next_pages {T R W _} fetch_page k p w.
Arguments all_pages_loop {T R W _} fetch_page fuel all_items p w log.
Arguments all_pages {T R W _} fetch_page fuel p w.
Arguments drain_pages {T R W _} fetch_page fuel p w.

(** The concatenation of the items of a list of pages. *)
Definition items_of {T} (pages : list (PaginatedResponse T)) : list T :=
  List.concat (map data pages).

(** ** src/http/url.rs *)

Definition str_ends_with_slash (s : string) : bool :=
  match String.get (Nat.pred (String.length s)) s with
  | Some c => match String.length s with
              | O => false
              | _ => Ascii.eqb c "/"%char
              end
  | None => false
  end.

Definition str_starts_with_slash (s : string) : bool :=
  match s with
  | String c _ => Ascii.eqb c "/"%char
  | EmptyString => false
  end.

(** The string [build_url] hands to [Url::parse]. *)
Definition build_url_str (base_url endpoint : string) : string :=
  let url_str := if negb (str_ends_with_slash base_url) && negb (str_starts_with_slash endpoint)
                 then base_url ++ "/" else base_url in
  url_str ++ endpoint.

Section BuildUrl.
(** [Url::parse] of the url crate, with the [Display] of its error. *)
Variable Url : Type.
Variable url_parse : string -> result Url string.

(** [build_url]. *)
Definition build_url (base_url endpoint : string) : VeniceResult Url :=
  let url_str := build_url_str base_url endpoint in
  match url_parse url_str with
  | Ok u => Ok u
  | Err err => Err (InvalidInput ("Invalid URL: " ++ url_str ++ " - " ++ err))
  end.
End BuildUrl.

(** ** Streaming: [process_streaming_response]'s body decoder *)

Definition byte_of (c : ascii) : Z := Z.of_N (N_of_ascii c).

Definition is_cont (b : Z) : bool := Z.leb 128 b && Z.ltb b 192.

Definition in_range (lo hi b : Z) : bool := Z.leb lo b && Z.leb b hi.

(** [core::str::from_utf8]'s validation: [None] when valid, otherwise
    [Some (valid_up_to, error_len)] ([error_len = None] for a sequence cut
    short by the end of the input). [idx] is the offset of [s]. *)
Fixpoint utf8_check (s : string) (idx : Z) : option (Z * option Z) :=
  match s with
  | EmptyString => None
  | String c0 r0 =>
      let first := byte_of c0 in
      if Z.ltb first 128 then utf8_check r0 (Z.add idx 1)
      else if in_range 194 223 first then
        match r0 with
        | EmptyString => Some (idx, None)
        | String c1 r1 =>
            if is_cont (byte_of c1) then utf8_check r1 (Z.add idx 2)
            else Some (idx, Some 1%Z)
        end
      else if in_range 224 239 first then
        match r0 with
        | EmptyString => Some (idx, None)
        | String c1 r1 =>
            let b1 := byte_of c1 in
            if (Z.eqb first 224 && in_range 160 191 b1)
               || (in_range 225 236 first && in_range 128 191 b1)
               || (Z.eqb first 237 && in_range 128 159 b1)
               || (in_range 238 239 first && in_range 128 191 b1) then
              match r1 with
              | EmptyString => Some (idx, None)
              | String c2 r2 =>
                  if is_cont (byte_of c2) then utf8_check r2 (Z.add idx 3)
                  else Some (idx, Some 2%Z)
              end
            else Some (idx, Some 1%Z)
        end
      else if in_range 240 244 first then
        match r0 with
        | EmptyString => Some (idx, None)
        | String c1 r1 =>
            let b1 := byte_of c1 in
            if (Z.eqb first 240 && in_range 144 191 b1)
               || (in_range 241 243 first && in_range 128 191 b1)
               || (Z.eqb first 244 && in_range 128 143 b1) then
              match r1 with
              | EmptyString => Some (idx, None)
              | String c2 r2 =>
                  if is_cont (byte_of c2) then
                    match r2 with
                    | EmptyString => Some (idx, None)
                    | String c3 r3 =>
                        if is_cont (byte_of c3) then utf8_check r3 (Z.add idx 4)
                        else Some (idx, Some 3%Z)
                    end
                  else Some (idx, Some 2%Z)
              end
            else Some (idx, Some 1%Z)
        end
      else Some (idx, Some 1%Z)
  end.

(** [String::from_utf8], with the [Display] of its error. *)
Definition from_utf8 (bytes : string) : result string string :=
  match utf8_check bytes 0 with
  | None => Ok bytes
  | Some (valid_up_to, Some len) =>
      Err ("invalid utf-8 sequence of " ++ dec len ++ " bytes from index " ++ dec valid_up_to)
  | Some (valid_up_to, None) =>
      Err ("incomplete utf-8 byte sequence from index " ++ dec valid_up_to)
  end.

(** [str::split_inclusive('\n')]: the pieces, each with whether it ended
    in a newline (which is left out of the piece). *)
Fixpoint split_lines (s : string) (cur : string) : list (string * bool) :=
  match s with
  | EmptyString => match cur with EmptyString => [] | _ => [(cur, false)] end
  | String c r =>
      if Ascii.eqb c "010"%char then (cur, true) :: split_lines r EmptyString
      else split_lines r (cur ++ String c EmptyString)
  end.

Definition strip_cr (s : string) : string :=
  match String.length s with
  | O => s
  | S n => match String.get n s with
           | Some "013"%char => String.substring 0 n s
           | _ => s
           end
  end.

(** [str::lines]: a ["\r"] is dropped only before a ["\n"]. *)
Definition lines (s : string) : list string :=
  List.map (fun (p : string * bool) => let '(l, nl) := p in if nl then strip_cr l else l)
    (split_lines s EmptyString).

(** [str::trim_start_matches] for a non-empty pattern: strip the pattern
    from the front as many times as it occurs there. *)
Fixpoint trim_start_matches_aux (fuel : nat) (pat s : string) : string :=
  match fuel with
  | O => s
  | S f =>
      if String.prefix pat s then
        trim_start_matches_aux f pat
          (String.substring (String.length pat) (String.length s - String.length pat) s)
      else s
  end.

Definition trim_start_matches (pat s : string) : string :=
  trim_start_matches_aux (S (String.length s)) pat s.

Definition data_prefix : string := "data: ".
Definition done_marker : string := "[DONE]".
Definition msg_no_data : string := "No data found in chunk".

Section Streaming.
Variable T : Type.
(** [serde_json::from_str::<T>], with the [Display] of its error. *)
Variable parse_chunk : string -> result T string.

(** The [for line in chunk_str.lines()] loop: [result] keeps the last
    parsed line; a parse failure returns at once ([?]). *)
Fixpoint scan_lines (ls : list string) (res : option T) : VeniceResult (option T) :=
  match ls with
  | [] => Ok res
  | line :: rest =>
      if String.prefix data_prefix line then
        let d := trim_start_matches data_prefix line in
        if String.eqb d done_marker then scan_lines rest res
        else match parse_chunk d with
             | Ok v => scan_lines rest (Some v)
             | Err e => Err (ParseError ("Failed to parse JSON: " ++ e))
             end
      else scan_lines rest res
  end.

(** The [and_then] closure applied to one byte read. *)
Definition process_chunk (chunk : string) : VeniceResult T :=
  match from_utf8 chunk with
  | Err e => Err (ParseError ("Invalid UTF-8: " ++ e))
  | Ok chunk_str =>
      match scan_lines (lines chunk_str) None with
      | Err e => Err e
      | Ok (Some v) => Ok v
      | Ok None => Err (ParseError msg_no_data)
      end
  end.

(** The [filter_map] stage. *)
Definition filter_no_data (r : VeniceResult T) : option (VeniceResult T) :=
  match r with
  | Ok v => Some (Ok v)
  | Err (ParseError msg) => if String.eqb msg msg_no_data then None else Some r
  | Err e => Some (Err e)
  end.

(** The decoded stream for a sequence of underlying reads of the body
    ([Err] for a read that failed in the transport). *)
Fixpoint decode_stream (reads : list (result string string)) : list (VeniceResult T) :=
  match reads with
  | [] => []
  | rd :: rest =>
      let r := match rd with
               | Err e => Err (HttpError e)
               | Ok bytes => process_chunk bytes
               end in
      match filter_no_data r with
      | Some item => item :: decode_stream rest
      | None => decode_stream rest
      end
  end.
End Streaming.

Arguments scan_lines {T} parse_chunk ls res.
Arguments process_chunk {T} parse_chunk chunk.
Arguments decode_stream {T} parse_chunk reads.

(** A line the loop skips as the end-of-stream marker: it starts with
    ["data: "] and is ["[DONE]"] once those prefixes are trimmed. *)
Definition is_done_line (line : string) : bool :=
  String.prefix data_prefix line
  && String.eqb (trim_start_matches data_prefix line) done_marker.

(** No ["\n"] and no ["\r"] in the string. *)
Definition no_line_break (s : string) : bool :=
  forallb (fun c => negb (Ascii.eqb c "010"%char) && negb (Ascii.eqb c "013"%char))
    (list_ascii_of_string s).

(** ** The binary and streaming processors (src/http/response_processor.rs) *)

Section Processors.
Variable parse_f64 : string -> option float.
Variable parse_value : string -> option Value.
Variable value_to_string : Value -> string.
(** [Display] for [reqwest::StatusCode]. *)
Variable show_status : Z -> string.

Definition default_mime_type : string := "application/octet-stream".

(** [process_binary_response]: the bytes, the [content-type] and the
    snapshot. *)
Definition process_binary_response (response : Response)
    : VeniceResult (string * string * RateLimitInfo) :=
  let rate_limit_info := from_headers parse_f64 (headers response) in
  let st := status response in
  if Z.eqb st 429 then
    Err (RateLimitExceeded ("Rate limit exceeded: " ++ show_rate_limit_info rate_limit_info))
  else if negb (is_success st) then
    let error_text := match body response with Ok s => s | Err _ => EmptyString end in
    Err (classify_error_body parse_value value_to_string st error_text
           ("Request failed with status: " ++ show_status st ++ " - " ++ error_text))
  else
    let mime_type :=
      match header_get (headers response) "content-type" with
      | Some v => match header_to_str v with Some m => m | None => default_mime_type end
      | None => default_mime_type
      end in
    match body response with
    | Err e => Err (ParseError ("Failed to read response bytes: " ++ e))
    | Ok binary_data => Ok (binary_data, mime_type, rate_limit_info)
    end.

Variable T : Type.
Variable parse_chunk : string -> result T string.

(** [process_streaming_response]: [reads] are the byte reads the body
    arrives in (its [bytes_stream]); the decoded stream is returned. *)
Definition process_streaming_response (response : Response)
    (reads : list (result string string))
    : VeniceResult (list (VeniceResult T) * RateLimitInfo) :=
  let rate_limit_info := from_headers parse_f64 (headers response) in
  let st := status response in
  if Z.eqb st 429 then
    Err (RateLimitExceeded ("Rate limit exceeded: " ++ show_rate_limit_info rate_limit_info))
  else if negb (is_success st) then
    let error_text := match body response with Ok s => s | Err _ => EmptyString end in
    Err (classify_error_body parse_value value_to_string st error_text
           ("Request failed with status: " ++ show_status st ++ " - " ++ error_text))
  else Ok (decode_stream parse_chunk reads, rate_limit_info).
End Processors.

(** * Fixtures *)

Definition no_f64 (_ : string) : option float := None.
Definition no_value (_ : string) : option Value := None.
Definition show_value (_ : Value) : string := EmptyString.
Definition unit_payload (_ : string) : result unit string := Ok tt.

Definition info_empty : RateLimitInfo := {|
  limit_requests := None; remaining_requests := None; reset_requests := None;
  limit_tokens := None; remaining_tokens := None; reset_tokens := None;
  balance_vcu := None; balance_usd := None |}.

Definition info_remaining_requests_0 : RateLimitInfo := {|
  limit_requests := None; remaining_requests := Some 0%Z; reset_requests := None;
  limit_tokens := None; remaining_tokens := None; reset_tokens := None;
  balance_vcu := None; balance_usd := None |}.

Definition info_reset_tokens_60 : RateLimitInfo := {|
  limit_requests := None; remaining_requests := None; reset_requests := None;
  limit_tokens := None; remaining_tokens := None; reset_tokens := Some 60%Z;
  balance_vcu := None; balance_usd := None |}.

Definition response_429 : Response := {|
  status := 429;
  headers := [("x-ratelimit-remaining-requests", "0")];
  body := Ok "rate limited" |}.

(** A page type for a cursor-paginated listing of numbers. *)
Record MockPage : Type := {
  mp_items : list nat;
  mp_has_more : bool;
  mp_cursor : option string
}.

#[export] Instance mock_page_info : PaginationInfo nat MockPage := {|
  get_data := mp_items;
  resp_has_more := mp_has_more;
  next_cursor := mp_cursor
|}.

(** Three pages; the last one reports [has_more = false] but still carries a
    cursor. *)
Definition mock_page1 : MockPage := {| mp_items := [1; 2]; mp_has_more := true; mp_cursor := Some "c1" |}.
Definition mock_page2 : MockPage := {| mp_items := [3]; mp_has_more := true; mp_cursor := Some "c2" |}.
Definition mock_page3 : MockPage := {| mp_items := [4; 5]; mp_has_more := false; mp_cursor := Some "c3" |}.

(** The server: the page is chosen by the cursor; the world counts calls. *)
Definition mock_fetch (w : nat) (pp : PaginationParams)
    : nat * VeniceResult (MockPage * RateLimitInfo) :=
  (S w, Ok (match cursor pp with
            | None => mock_page1
            | Some c => if String.eqb c "c1" then mock_page2 else mock_page3
            end, info_empty)).

(** The same server failing once a cursor is sent. *)
Definition mock_fetch_fail (w : nat) (pp : PaginationParams)
    : nat * VeniceResult (MockPage * RateLimitInfo) :=
  match cursor pp with
  | None => (S w, Ok (mock_page1, info_empty))
  | Some _ => (S w, Err (ApiError 503 "unavailable" "try later"))
  end.

(** A stand-in for [serde_json::from_str] on objects: it accepts the
    texts that begin with ["{"] and end with ["}"], and yields the text. *)
Definition mock_parse_chunk (s : string) : result string string :=
  let last := String.get (Nat.pred (String.length s)) s in
  if String.prefix "{" s
     && match last with Some c => Ascii.eqb c "}"%char | None => false end
  then Ok s
  else Err "expected value at line 1 column 1".

(** A line feed, and one server-sent event: a ["data: "] line followed by
    a blank line. *)
Definition lf : string := String "010"%char EmptyString.

Definition sse_event (payload : string) : string := data_prefix ++ payload ++ lf ++ lf.

Definition json_error : VeniceError :=
  ParseError "Failed to parse JSON: expected value at line 1 column 1".

Definition mock_start : GenericPaginator :=
  paginator_new {| limit := Some 2%Z; cursor := None |}.

Definition mock_p2 : GenericPaginator :=
  {| params := {| limit := Some 2%Z; cursor := Some "c2" |}; has_more := true |}.

Definition mock_p3 : GenericPaginator :=
  {| params := {| limit := Some 2%Z; cursor := Some "c3" |}; has_more := false |}.

Definition mock_pg3 : PaginatedResponse nat := {|
  data := [4; 5]; page_has_more := false; page_next_cursor := Some "c3";
  rate_limit_info := info_empty |}.

(** Fixtures of the rate limiter and retry theorems. *)

(** A limiter whose only update came from a 429 snapshot reporting
    [remaining_requests = 0] without any reset header. *)
Definition limiter_after_429 : RateLimiter.t :=
  RateLimiter.update_from_response (Some 1700000000%Z) info_remaining_requests_0
    RateLimiter.new.

Definition limiter_tokens_once : RateLimiter.t :=
  RateLimiter.update_from_response (Some 1700000000%Z) info_reset_tokens_60 RateLimiter.new.

(** The value of a field after a sequence of updates, as the amended claim
    words it: the value of the most recent update that carries one,
    otherwise the initial value. *)
Definition latest {A} (f : Clock * RateLimitInfo -> option A)
    (us : list (Clock * RateLimitInfo)) (d : A) : A :=
  fold_left (fun acc u => unwrap_or (f u) acc) us d.

(** The absolute token reset time an update carries: the clock reading
    plus [reset_tokens], when both are available. *)
Definition token_reset_of (u : Clock * RateLimitInfo) : option Z :=
  match reset_tokens (snd u), fst u with
  | Some r, Some now => Some (wrap_i64 (wrap_u64 (Z.add now r)))
  | _, _ => None
  end.

Definition retry_cfg_no_jitter : RetryConfig := {|
  max_retries := 3; initial_delay_ms := 500; max_delay_ms := 10000;
  backoff_factor := 2.0%float; add_jitter := false |}.

Definition retry_cfg_flat_jitter : RetryConfig := {|
  max_retries := 3; initial_delay_ms := 500; max_delay_ms := 10000;
  backoff_factor := 1.0%float; add_jitter := true |}.

(** An operation that fails once with a network error, then succeeds; the
    world counts its calls. *)
Definition fail_once (w : nat) : nat * VeniceResult unit :=
  match w with
  | O => (1%nat, Err (HttpError "connection reset"))
  | S _ => (S w, Ok tt)
  end.

Definition draw_quarter (_ : Z) : float := 0.25%float.

Definition retry_cfg_u32_max : RetryConfig := {|
  max_retries := 4294967295; initial_delay_ms := 500; max_delay_ms := 10000;
  backoff_factor := 2.0%float; add_jitter := false |}.

Definition always_rate_limited (w : nat) : nat * VeniceResult unit :=
  (S w, Err (RateLimitExceeded "Rate limit exceeded")).

(** A response carrying one rate-limit header. *)
Definition hdr_limit_100 : HeaderMap := [("x-ratelimit-limit-requests", "100")].

(** A limiter with its request counter exhausted and both resets in the
    future of [1700000000]. *)
Definition limiter_two_resets : RateLimiter.t := {|
  RateLimiter.max_requests := 100; RateLimiter.remaining_requests := 0;
  RateLimiter.reset_time_requests := 1700000100;
  RateLimiter.max_tokens := 0; RateLimiter.remaining_tokens := 1;
  RateLimiter.reset_time_tokens := 1700000050;
  RateLimiter.config := default_rate_limiter_config |}.

Definition info_remaining_5 : RateLimitInfo := {|
  limit_requests := Some 100%Z; remaining_requests := Some 5%Z; reset_requests := None;
  limit_tokens := None; remaining_tokens := None; reset_tokens := None;
  balance_vcu := None; balance_usd := None |}.

(** A 500 response with a plain-text body. *)
Definition response_500_text : Response := {|
  status := 500; headers := []; body := Ok "upstream timeout" |}.

(** An SSE comment line followed by the blank separator line. *)
Definition keepalive_chunk : string := ": keep-alive" ++ lf ++ lf.

(** * C1: the snapshot of a response *)

(** The snapshot parsed from a header value of ["0"] for
    [x-ratelimit-remaining-requests] has [remaining_requests = Some 0]. *)
Lemma from_headers_remaining_zero (pf : string -> option float) (h : HeaderMap) :
  header_get h "x-ratelimit-remaining-requests" = Some "0" ->
  remaining_requests (from_headers pf h) = Some 0%Z.
Proof.
  intros Hh. unfold from_headers, parse_header. simpl. rewrite Hh. reflexivity.
Qed.

(** Claim C1 (counterexample): the 429 response with
    [x-ratelimit-remaining-requests: 0] yields [RateLimitExceeded], but the
    caller obtains no snapshot with it: the result is an [Err] that carries
    only the error, although the headers parse to
    [remaining_requests = Some 0]. *)
Lemma C1_429_has_no_snapshot :
  process_response no_f64 no_value show_value unit unit_payload response_429
    = Err (RateLimitExceeded
             "Rate limit exceeded: Rate Limit Info: 0/0 requests, 0/0 tokens")
  /\ snapshot_of unit (process_response no_f64 no_value show_value unit unit_payload
                         response_429) = None
  /\ remaining_requests (from_headers no_f64 (headers response_429)) = Some 0%Z.
Proof. vm_compute. repeat split; reflexivity. Qed.

(** Claim C1 (amended): [process_response] hands the snapshot parsed from
    the headers to the caller only with a success, as
    [Ok (payload, from_headers headers)] after a 2xx status; every error
    result carries the error alone.  A 429 yields [RateLimitExceeded] whose
    message is ["Rate limit exceeded: "] followed by the [Display] of the
    parsed snapshot, so with [x-ratelimit-remaining-requests: 0] the
    message reports 0 remaining requests. *)
Theorem process_response_snapshot
    (pf : string -> option float) (pv : string -> option Value)
    (vs : Value -> string) (T : Type) (pj : string -> result T string)
    (resp : Response) :
  (forall payload info,
      process_response pf pv vs T pj resp = Ok (payload, info) ->
      info = from_headers pf (headers resp) /\ is_success (status resp) = true)
  /\ (forall e, process_response pf pv vs T pj resp = Err e ->
      snapshot_of T (process_response pf pv vs T pj resp) = None)
  /\ (status resp = 429%Z ->
      process_response pf pv vs T pj resp
        = Err (RateLimitExceeded
                 ("Rate limit exceeded: "
                  ++ show_rate_limit_info (from_headers pf (headers resp)))))
  /\ (status resp = 429%Z ->
      header_get (headers resp) "x-ratelimit-remaining-requests" = Some "0" ->
      exists rest, process_response pf pv vs T pj resp
        = Err (RateLimitExceeded ("Rate limit exceeded: Rate Limit Info: 0/" ++ rest))).
Proof.
  unfold process_response.
  split; [| split; [| split]].
  - intros payload info Hok.
    destruct (Z.eqb (status resp) 429) eqn:E429; [discriminate |].
    destruct (is_success (status resp)) eqn:Es; [| discriminate].
    simpl in Hok.
    destruct (body resp) as [text | e]; [| discriminate].
    destruct (pj text) as [d | e]; [| discriminate].
    inversion Hok; subst. split; reflexivity.
  - intros e Herr. rewrite Herr. reflexivity.
  - intros H429. rewrite H429. reflexivity.
  - intros H429 Hh. rewrite H429. simpl.
    unfold show_rate_limit_info.
    rewrite (from_headers_remaining_zero pf (headers resp) Hh).
    eexists. reflexivity.
Qed.

Lemma process_response_snapshot_witness :
  status response_429 = 429%Z
  /\ header_get (headers response_429) "x-ratelimit-remaining-requests" = Some "0"
  /\ exists rest,
       process_response no_f64 no_value show_value unit unit_payload response_429
       = Err (RateLimitExceeded ("Rate limit exceeded: Rate Limit Info: 0/" ++ rest)).
Proof.
  split; [reflexivity | split; [reflexivity |]].
  exact (proj2 (proj2 (proj2 (process_response_snapshot no_f64 no_value show_value
           unit unit_payload response_429))) eq_refl eq_refl).
Defined.

(** * C2: [acquire] *)

(** Claim C2 (counterexample): with auto-wait enabled (the default
    configuration) and no reset time in the future, [acquire] returns
    [RateLimitExceeded] to the caller instead of waiting. *)
Lemma C2_auto_wait_unknown_reset :
  RateLimiter.auto_wait_enabled limiter_after_429 = true
  /\ RateLimiter.remaining_requests limiter_after_429 = 0%Z
  /\ RateLimiter.acquire (Some 1700000000%Z) limiter_after_429
     = (Err (RateLimitExceeded RateLimiter.msg_unknown_reset), None).
Proof. vm_compute. repeat split; reflexivity. Qed.

(** [time_until_reset] finds no reset exactly when the clock cannot be
    read or both reset times lie at or before now. *)
Lemma time_until_reset_none (clock : Clock) (s : RateLimiter.t) :
  RateLimiter.time_until_reset clock s = None <->
  clock = None \/
  exists secs, clock = Some secs
    /\ (RateLimiter.reset_time_requests s <= wrap_i64 secs)%Z
    /\ (RateLimiter.reset_time_tokens s <= wrap_i64 secs)%Z.
Proof.
  unfold RateLimiter.time_until_reset. destruct clock as [secs |].
  - split.
    + intros H. right. exists secs. split; [reflexivity |].
      destruct (Z.ltb_spec (wrap_i64 secs) (RateLimiter.reset_time_tokens s)).
      * destruct (Z.ltb (wrap_i64 secs) (RateLimiter.reset_time_requests s)); discriminate.
      * destruct (Z.ltb_spec (wrap_i64 secs) (RateLimiter.reset_time_requests s));
          [discriminate | lia].
    + intros [H | [secs' [Hs [H1 H2]]]]; [discriminate |].
      injection Hs as <-.
      destruct (Z.ltb_spec (wrap_i64 secs) (RateLimiter.reset_time_tokens s)); [lia |].
      destruct (Z.ltb_spec (wrap_i64 secs) (RateLimiter.reset_time_requests s)); [lia |].
      reflexivity.
  - split; [intros _; left; reflexivity | intros _; reflexivity].
Qed.

(** Claim C2 (amended): [acquire] returns [Ok] at once, without sleeping,
    when both remaining counters are positive; when a counter is 0 and
    auto-wait is disabled it returns [RateLimitExceeded] at once without
    sleeping; when a counter is 0, auto-wait is enabled and a reset time
    lies in the future ([time_until_reset = Some w]) it sleeps
    [min w max_wait_time] seconds (no sleep when that is 0) and returns
    [Ok]; when a counter is 0, auto-wait is enabled and no reset time lies
    in the future (or the clock is unreadable) it returns
    [RateLimitExceeded] without sleeping. *)
Theorem acquire_cases (clock : Clock) (s : RateLimiter.t) :
  ((0 < RateLimiter.remaining_requests s)%Z -> (0 < RateLimiter.remaining_tokens s)%Z ->
   RateLimiter.acquire clock s = (Ok tt, None))
  /\ ((RateLimiter.remaining_requests s = 0%Z \/ RateLimiter.remaining_tokens s = 0%Z) ->
      auto_wait (RateLimiter.config s) = false ->
      RateLimiter.acquire clock s
        = (Err (RateLimitExceeded RateLimiter.msg_no_auto_wait), None))
  /\ ((RateLimiter.remaining_requests s = 0%Z \/ RateLimiter.remaining_tokens s = 0%Z) ->
      auto_wait (RateLimiter.config s) = true ->
      forall w, RateLimiter.time_until_reset clock s = Some w ->
      let wait := Z.min w (max_wait_time (RateLimiter.config s)) in
      RateLimiter.acquire clock s = (Ok tt, if Z.ltb 0 wait then Some wait else None))
  /\ ((RateLimiter.remaining_requests s = 0%Z \/ RateLimiter.remaining_tokens s = 0%Z) ->
      auto_wait (RateLimiter.config s) = true ->
      RateLimiter.time_until_reset clock s = None ->
      RateLimiter.acquire clock s
        = (Err (RateLimitExceeded RateLimiter.msg_unknown_reset), None)).
Proof.
  assert (Hlim : (RateLimiter.remaining_requests s = 0%Z \/
                  RateLimiter.remaining_tokens s = 0%Z) ->
                 RateLimiter.is_rate_limited s = true).
  { unfold RateLimiter.is_rate_limited. intros [H | H]; rewrite H;
      [reflexivity | apply orb_true_r]. }
  unfold RateLimiter.acquire.
  split; [| split; [| split]].
  - intros Hr Ht.
    assert (RateLimiter.is_rate_limited s = false) as ->; [| reflexivity].
    unfold RateLimiter.is_rate_limited.
    destruct (Z.eqb_spec (RateLimiter.remaining_requests s) 0); [lia |].
    destruct (Z.eqb_spec (RateLimiter.remaining_tokens s) 0); [lia |]. reflexivity.
  - intros H0 Ha. rewrite (Hlim H0), Ha. reflexivity.
  - intros H0 Ha w Hw. rewrite (Hlim H0), Ha. simpl. rewrite Hw. reflexivity.
  - intros H0 Ha Hn. rewrite (Hlim H0), Ha. simpl. rewrite Hn. reflexivity.
Qed.

Lemma acquire_cases_witness :
  RateLimiter.remaining_requests limiter_after_429 = 0%Z
  /\ auto_wait (RateLimiter.config limiter_after_429) = true
  /\ RateLimiter.time_until_reset (Some 1700000000%Z) limiter_after_429 = None
  /\ RateLimiter.acquire (Some 1700000000%Z) limiter_after_429
     = (Err (RateLimitExceeded RateLimiter.msg_unknown_reset), None).
Proof.
  split; [vm_compute; reflexivity |].
  split; [vm_compute; reflexivity |].
  split; [vm_compute; reflexivity |].
  apply (proj2 (proj2 (proj2 (acquire_cases (Some 1700000000%Z) limiter_after_429)))).
  - left. vm_compute. reflexivity.
  - vm_compute. reflexivity.
  - vm_compute. reflexivity.
Defined.

(** * C10: [update_from_response] *)

(** Claim C10 (counterexample): the stored token reset time is not the
    snapshot's [reset_tokens] (60) but the clock plus 60, and applying the
    same snapshot a second time one second later changes the limiter. *)
Lemma C10_token_reset_is_clock_relative :
  RateLimiter.reset_time_tokens limiter_tokens_once = 1700000060%Z
  /\ RateLimiter.reset_time_tokens
       (RateLimiter.update_from_response (Some 1700000001%Z) info_reset_tokens_60
          limiter_tokens_once) = 1700000061%Z
  /\ RateLimiter.update_from_response (Some 1700000001%Z) info_reset_tokens_60
       limiter_tokens_once <> limiter_tokens_once.
Proof.
  split; [vm_compute; reflexivity |].
  split; [vm_compute; reflexivity |].
  vm_compute. intros H. discriminate H.
Qed.

Lemma update_fields (c : Clock) (i : RateLimitInfo) (s : RateLimiter.t) :
  let s' := RateLimiter.update_from_response c i s in
  RateLimiter.max_requests s' = unwrap_or (limit_requests i) (RateLimiter.max_requests s)
  /\ RateLimiter.remaining_requests s'
     = unwrap_or (remaining_requests i) (RateLimiter.remaining_requests s)
  /\ RateLimiter.reset_time_requests s'
     = unwrap_or (option_map wrap_i64 (reset_requests i)) (RateLimiter.reset_time_requests s)
  /\ RateLimiter.max_tokens s' = unwrap_or (limit_tokens i) (RateLimiter.max_tokens s)
  /\ RateLimiter.remaining_tokens s'
     = unwrap_or (remaining_tokens i) (RateLimiter.remaining_tokens s)
  /\ RateLimiter.reset_time_tokens s'
     = unwrap_or (token_reset_of (c, i)) (RateLimiter.reset_time_tokens s)
  /\ RateLimiter.config s' = RateLimiter.config s.
Proof.
  destruct i as [lr rr rsr lt rt rst bv bu]; unfold token_reset_of; simpl.
  destruct lr, rr, rsr, lt, rt, rst, c;
    repeat split; reflexivity.
Qed.

(** Claim C10 (amended): after a sequence of updates, each applied with
    the clock reading of its time, the request and token limits and
    remaining counts hold the value of the most recent snapshot carrying
    that field (unchanged where no snapshot carries it); the request reset
    time holds the most recent [reset_requests] reinterpreted as [i64];
    the token reset time holds the clock reading plus [reset_tokens] of
    the most recent update that carried [reset_tokens] with a readable
    clock; and applying the same snapshot twice at the same clock reading
    leaves the limiter as applying it once. *)
Theorem update_from_response_latest (s : RateLimiter.t) (us : list (Clock * RateLimitInfo)) :
  let s' := RateLimiter.apply_all s us in
  RateLimiter.max_requests s'
    = latest (fun u => limit_requests (snd u)) us (RateLimiter.max_requests s)
  /\ RateLimiter.remaining_requests s'
     = latest (fun u => remaining_requests (snd u)) us (RateLimiter.remaining_requests s)
  /\ RateLimiter.reset_time_requests s'
     = latest (fun u => option_map wrap_i64 (reset_requests (snd u))) us
         (RateLimiter.reset_time_requests s)
  /\ RateLimiter.max_tokens s'
     = latest (fun u => limit_tokens (snd u)) us (RateLimiter.max_tokens s)
  /\ RateLimiter.remaining_tokens s'
     = latest (fun u => remaining_tokens (snd u)) us (RateLimiter.remaining_tokens s)
  /\ RateLimiter.reset_time_tokens s'
     = latest token_reset_of us (RateLimiter.reset_time_tokens s)
  /\ (forall c i, RateLimiter.update_from_response c i
                    (RateLimiter.update_from_response c i s')
                  = RateLimiter.update_from_response c i s').
Proof.
  revert s. induction us as [| [c i] us IH]; intros s.
  - simpl. repeat split; try reflexivity.
    intros c i. destruct i as [lr rr rsr lt rt rst bv bu].
    destruct lr, rr, rsr, lt, rt, rst, c; reflexivity.
  - simpl. destruct (IH (RateLimiter.update_from_response c i s))
      as (H1 & H2 & H3 & H4 & H5 & H6 & H7).
    destruct (update_fields c i s) as (F1 & F2 & F3 & F4 & F5 & F6 & _).
    unfold latest in *. simpl.
    rewrite <- F1, <- F2, <- F3, <- F4, <- F5, <- F6.
    repeat split; assumption.
Qed.

(** * C3: the retry delay schedule *)

(** Counterexample to claim C3: with jitter on, a configuration with an
    initial delay of 500 ms and a factor of 1 (so a clamped delay of
    500 ms whatever the exponent) and a random draw of 0.25 give a delay
    of 375 ms, below that base; [with_retry] sleeps 375 ms after the first
    failure. *)
Lemma C3_delay_schedule_diverges :
  calculate_delay (without_jitter retry_cfg_flat_jitter) 1 0.25%float = 500%Z
  /\ calculate_delay retry_cfg_flat_jitter 1 0.25%float = 375%Z
  /\ with_retry nat unit fail_once retry_cfg_flat_jitter draw_quarter 5 O
     = Some (Ok tt, 2%nat, 2%nat, [375%Z]).
Proof. vm_compute. repeat split; reflexivity. Qed.

Lemma calculate_delay_without_jitter (cfg : RetryConfig) (a : Z) (r r' : float) :
  calculate_delay (without_jitter cfg) a r = calculate_delay (without_jitter cfg) a r'
  /\ (calculate_delay (without_jitter cfg) a r <= max_delay_ms cfg)%Z
  /\ (add_jitter cfg = false -> calculate_delay cfg a r = calculate_delay (without_jitter cfg) a r).
Proof.
  unfold calculate_delay; simpl. split; [reflexivity | split; [apply Z.le_min_r |]].
  intros Hj; rewrite Hj; reflexivity.
Qed.

Lemma with_retry_loop_without_jitter (W A : Type) (f : W -> W * VeniceResult A)
    (cfg : RetryConfig) (Hj : add_jitter cfg = false) (draw draw' : Z -> float) (fuel : nat) :
  forall attempt w calls sleeps,
    with_retry_loop W A f cfg draw fuel attempt w calls sleeps
    = with_retry_loop W A f cfg draw' fuel attempt w calls sleeps
    /\ (Forall (fun d => (d <= max_delay_ms cfg)%Z) sleeps ->
        forall res w' n sleeps',
          with_retry_loop W A f cfg draw fuel attempt w calls sleeps = Some (res, w', n, sleeps') ->
          Forall (fun d => (d <= max_delay_ms cfg)%Z) sleeps').
Proof.
  induction fuel as [| fuel IH]; intros attempt w calls sleeps;
    [split; [reflexivity | discriminate] |].
  cbn [with_retry_loop]. destruct (f w) as [w1 [x | e]].
  - split; [reflexivity |]. intros Hs res w' n s' H; injection H as <- <- <- <-; exact Hs.
  - destruct (_ || _).
    + split; [reflexivity |]. intros Hs res w' n s' H; injection H as <- <- <- <-; exact Hs.
    + set (att := wrap_u32 (attempt + 1)).
      destruct (calculate_delay_without_jitter cfg att (draw att) (draw' att)) as (E & Hle & Hc).
      destruct (calculate_delay_without_jitter cfg att (draw' att) (draw att)) as (_ & _ & Hc').
      assert (Ed : calculate_delay cfg att (draw att) = calculate_delay cfg att (draw' att))
        by (rewrite (Hc Hj), (Hc' Hj); exact E).
      split; [rewrite Ed; apply IH |].
      intros Hs. apply IH. apply Forall_app; split; [exact Hs |].
      constructor; [| constructor]. rewrite (Hc Hj); exact Hle.
Qed.

(** Claim C3 (amended): [RetryConfig::calculate_delay a] first computes a
    delay clamped to at most [max_delay_ms] (the exponent of
    [backoff_factor] it uses is left open).  Without jitter that clamped
    delay is the result and does not depend on the random draw, so every
    sleep of [with_retry] is at most [max_delay_ms] and the same for every
    draw.  With jitter the result is [(delay as f64 * (0.5 + r)) as u64]
    for the random [r]: it varies with the draw and can fall below the
    clamped delay. *)
Theorem calculate_delay_cases (cfg : RetryConfig) (a : Z) (r : float) :
  let delay := calculate_delay (without_jitter cfg) a r in
  (delay <= max_delay_ms cfg)%Z
  /\ (forall r', calculate_delay (without_jitter cfg) a r' = delay)
  /\ (add_jitter cfg = false -> calculate_delay cfg a r = delay)
  /\ (add_jitter cfg = true ->
      calculate_delay cfg a r
      = f64_to_u64 (PrimFloat.mul (int_to_f64 delay) (PrimFloat.add 0.5%float r)))
  /\ (add_jitter cfg = false ->
      forall (W A : Type) (f : W -> W * VeniceResult A) (draw draw' : Z -> float)
             (fuel : nat) (w w' : W) (res : VeniceResult A) (n : nat) (sleeps : list Z),
        with_retry W A f cfg draw fuel w = Some (res, w', n, sleeps) ->
        with_retry W A f cfg draw' fuel w = Some (res, w', n, sleeps)
        /\ Forall (fun d => (d <= max_delay_ms cfg)%Z) sleeps).
Proof.
  intros delay.
  destruct (calculate_delay_without_jitter cfg a r r) as (_ & Hle & Hc).
  split; [exact Hle | split; [| split; [exact Hc | split]]].
  - intros r'. apply (calculate_delay_without_jitter cfg a r' r).
  - intros Hj. unfold calculate_delay at 1. rewrite Hj. reflexivity.
  - intros Hj W A f draw draw' fuel w w' res n sleeps H.
    destruct (with_retry_loop_without_jitter W A f cfg Hj draw draw' fuel 0 w O [])
      as [E B].
    unfold with_retry in *. split; [rewrite <- E; exact H |].
    exact (B (Forall_nil _) res w' n sleeps H).
Qed.

(** The amended C3 statement on a 500 ms, factor-1 configuration: with
    jitter a draw of 0.25 gives 375 ms, and with jitter off [with_retry]
    sleeps 500 ms whatever the draws. *)
Lemma calculate_delay_cases_witness :
  calculate_delay retry_cfg_flat_jitter 1 0.25%float
  = f64_to_u64 (PrimFloat.mul (int_to_f64 500) (PrimFloat.add 0.5%float 0.25%float))
  /\ with_retry nat unit fail_once (without_jitter retry_cfg_flat_jitter) (fun _ => 0.75%float) 5 O
     = Some (Ok tt, 2%nat, 2%nat, [500%Z]).
Proof.
  split.
  - rewrite (proj1 (proj2 (proj2 (proj2 (calculate_delay_cases retry_cfg_flat_jitter 1
                                             0.25%float)))) eq_refl).
    vm_compute. reflexivity.
  - exact (proj1 (proj2 (proj2 (proj2 (proj2 (calculate_delay_cases (without_jitter retry_cfg_flat_jitter) 1
                                                0.25%float)))) eq_refl nat unit fail_once
             draw_quarter (fun _ => 0.75%float) 5 O 2%nat (Ok tt) 2%nat [500%Z]
             ltac:(vm_compute; reflexivity))).
Defined.

(** * C8: bounded re-invocation in [with_retry] *)

Lemma wrap_u32_range (x : Z) : (0 <= wrap_u32 x < 4294967296)%Z.
Proof. unfold wrap_u32, two_pow. apply Z.mod_pos_bound. lia. Qed.

Lemma with_retry_loop_u32_max_runs_out (draw : Z -> float) :
  forall fuel attempt w calls sleeps,
    with_retry_loop nat unit always_rate_limited retry_cfg_u32_max draw
      fuel attempt w calls sleeps = None.
Proof.
  induction fuel as [| fuel IH]; intros attempt w calls sleeps; [reflexivity |].
  simpl.
  destruct (Z.ltb_spec 4294967295 (wrap_u32 (attempt + 1))) as [Hlt | _].
  - pose proof (wrap_u32_range (attempt + 1)). lia.
  - simpl. apply IH.
Qed.

(** Claim C8 (code bug): with [max_retries = u32::MAX] and an operation
    that always fails with a retryable error, the attempt counter wraps to
    0 after the [u32::MAX + 1]-th failure and [with_retry] never stops: for
    every bound [fuel] on the number of calls, it is still calling the
    operation when the bound is reached, in particular after
    [max_retries + 2] calls, where at most [max_retries + 1] calls and
    then the last error are claimed. *)
Theorem with_retry_u32_max_never_stops (draw : Z -> float) (fuel : nat) :
  with_retry nat unit always_rate_limited retry_cfg_u32_max draw fuel O = None.
Proof. apply with_retry_loop_u32_max_runs_out. Qed.

(** Below [u32::MAX] the bound holds: an operation that always fails
    retryably is called exactly [max_retries + 1] times, then its last
    error is returned. *)
Lemma with_retry_loop_retryable_bound (W A : Type) (f : W -> W * VeniceResult A)
    (cfg : RetryConfig) (draw : Z -> float)
    (Hk : (0 <= max_retries cfg < 4294967295)%Z)
    (Hf : forall w, exists w' e, f w = (w', Err e) /\ is_retryable_error e = true) :
  forall fuel a w calls sleeps,
    (0 <= a <= max_retries cfg)%Z ->
    (Z.to_nat (max_retries cfg - a) < fuel)%nat ->
    exists e w' sl,
      with_retry_loop W A f cfg draw fuel a w calls sleeps
        = Some (Err e, w', (calls + S (Z.to_nat (max_retries cfg - a)))%nat, sl).
Proof.
  induction fuel as [| fuel IH]; intros a w calls sleeps Ha Hfuel; [lia |].
  simpl. destruct (Hf w) as (w1 & e1 & Hw & Hr). rewrite Hw.
  assert (Hwrap : wrap_u32 (a + 1) = (a + 1)%Z).
  { unfold wrap_u32, two_pow. apply Z.mod_small. lia. }
  rewrite Hwrap, Hr. simpl.
  destruct (Z.ltb_spec (max_retries cfg) (a + 1)) as [Hlt | Hge].
  - exists e1, w1, sleeps. simpl.
    replace (Z.to_nat (max_retries cfg - a)) with O by lia.
    rewrite Nat.add_1_r. reflexivity.
  - destruct (IH (a + 1)%Z w1 (S calls)
                (app sleeps [calculate_delay cfg (a + 1) (draw (a + 1)%Z)]))
      as (e & w' & sl & Hrun); [lia | lia |].
    exists e, w', sl. rewrite Hrun.
    replace (S calls + S (Z.to_nat (max_retries cfg - (a + 1))))%nat
      with (calls + S (Z.to_nat (max_retries cfg - a)))%nat by lia.
    reflexivity.
Qed.

(** * C6, C7: the paginator *)

Section PaginatorFacts.
Context {T R W : Type} `{PaginationInfo T R}.
Variable fetch_page : W -> PaginationParams -> W * VeniceResult (R * RateLimitInfo).

(** A terminal paginator answers "no page" and calls nothing. *)
Lemma next_page_terminal (p : GenericPaginator) (w : W) :
  has_more p = false -> next_page fetch_page p w = (Ok None, p, w, []).
Proof. intros Hp. unfold next_page. rewrite Hp. reflexivity. Qed.

(** A page reporting no more pages, or carrying no cursor, leaves the
    paginator terminal. *)
Lemma next_page_ends (p p' : GenericPaginator) (w w' : W) l pg :
  next_page fetch_page p w = (Ok (Some pg), p', w', l) ->
  (page_has_more pg = false \/ page_next_cursor pg = None) ->
  has_more p' = false.
Proof.
  unfold next_page. destruct (has_more p); simpl; [| congruence].
  destruct (fetch_page w (params p)) as [w1 [[resp info] | e]]; [| congruence].
  intros Hn Hend. inversion Hn; subst; clear Hn. simpl in Hend.
  destruct (next_cursor resp); simpl; [| reflexivity].
  destruct Hend as [Hend | Hend]; [exact Hend | discriminate].
Qed.

(** An error of [next_page] is the error [fetch_page] returned, and the
    paginator is left as it was. *)
Lemma next_page_error (p p' : GenericPaginator) (w w' : W) l e :
  next_page fetch_page p w = (Err e, p', w', l) ->
  snd (fetch_page w (params p)) = Err e /\ p' = p /\ l = [params p].
Proof.
  unfold next_page. destruct (has_more p); simpl; [| congruence].
  destruct (fetch_page w (params p)) as [w1 [[resp info] | e1]]; simpl;
    intros Hn; inversion Hn; subst; auto.
Qed.
End PaginatorFacts.

(** Claim C6: once [next_page] has returned a page with [has_more = false],
    or a page without [next_cursor], every later [next_page] call returns
    no page, calls [fetch_page] no more (so no cursor of that page is ever
    used) and leaves the paginator and the world as they are. *)
Theorem next_page_terminal_absorbing {T R W : Type} `{PaginationInfo T R}
    (fetch_page : W -> PaginationParams -> W * VeniceResult (R * RateLimitInfo))
    (p p' : GenericPaginator) (w w' : W) (l : list PaginationParams)
    (pg : PaginatedResponse T)
    (Hpage : next_page fetch_page p w = (Ok (Some pg), p', w', l))
    (Hend : page_has_more pg = false \/ page_next_cursor pg = None) :
  forall (k : nat) (w0 : W),
    next_pages fetch_page k p' w0 = (repeat (Ok None) k, p', w0, []).
Proof.
  pose proof (next_page_ends fetch_page p p' w w' l pg Hpage Hend) as Hterm.
  induction k as [| k IH]; intros w0; [reflexivity |].
  simpl. rewrite (next_page_terminal fetch_page p' w0 Hterm), IH. reflexivity.
Qed.

Section AllPagesFacts.
Context {T R W : Type} `{PaginationInfo T R}.
Variable fetch_page : W -> PaginationParams -> W * VeniceResult (R * RateLimitInfo).

Lemma all_pages_loop_drain (fuel : nat) :
  forall acc p w log r p' w' l,
    all_pages_loop fetch_page fuel acc p w log = Some (r, p', w', l) ->
    exists rd l0,
      drain_pages fetch_page (S fuel) p w = Some (rd, p', w', l0)
      /\ l = app log l0
      /\ r = match rd with
             | Ok pages => Ok (app acc (items_of pages))
             | Err e => Err e
             end.
Proof.
  induction fuel as [| fuel IH]; intros acc p w log r p' w' l Hrun;
    [discriminate |].
  simpl in Hrun. remember (S fuel) as sf eqn:Hsf. cbn [drain_pages].
  destruct (next_page fetch_page p w) as [[[r1 p1] w1] l1] eqn:E.
  destruct r1 as [[page |] | e].
  - destruct (page_has_more page) eqn:Hm; simpl in Hrun.
    + destruct (IH _ _ _ _ _ _ _ _ Hrun) as (rd & l0 & Hd & Hl & Hr).
      rewrite Hd.
      destruct rd as [pages | e]; eexists; exists (app l1 l0);
        (split; [reflexivity | split]);
        [rewrite Hl, app_assoc; reflexivity | rewrite Hr; unfold items_of; simpl;
         rewrite app_assoc; reflexivity
        | rewrite Hl, app_assoc; reflexivity | exact Hr].
    + inversion Hrun; subst; clear Hrun.
      assert (Hterm : has_more p' = false)
        by (apply (next_page_ends fetch_page p p' w w' l1 page E); left; exact Hm).
      cbn [drain_pages];
        rewrite (next_page_terminal fetch_page p' w' Hterm);
        eexists; exists (app l1 []); (split; [reflexivity | split]);
        try (rewrite app_nil_r; reflexivity);
        unfold items_of; simpl; rewrite app_nil_r; reflexivity.
  - inversion Hrun; subst; clear Hrun.
    exists (Ok []), l1. split; [reflexivity | split; [reflexivity |]].
    unfold items_of. simpl. rewrite app_nil_r. reflexivity.
  - inversion Hrun; subst; clear Hrun.
    exists (Err e), l1. split; [reflexivity | split; reflexivity].
Qed.
End AllPagesFacts.

(** The C6 theorem at the third page of [mock_fetch]: that page says
    [has_more = false] (with a cursor), and four later calls return no
    page without calling the server. *)
Lemma next_page_terminal_absorbing_witness :
  next_page mock_fetch mock_p2 2%nat = (Ok (Some mock_pg3), mock_p3, 3%nat, [params mock_p2])
  /\ (page_has_more mock_pg3 = false \/ page_next_cursor mock_pg3 = None)
  /\ next_pages mock_fetch 4 mock_p3 7%nat = (repeat (Ok None) 4, mock_p3, 7%nat, []).
Proof.
  split; [reflexivity | split; [left; reflexivity |]].
  apply (next_page_terminal_absorbing mock_fetch mock_p2 mock_p3 2%nat 3%nat
           [params mock_p2] mock_pg3); [reflexivity | left; reflexivity].
Defined.

(** Claim C7: when [all_pages] returns, it returns what draining the
    paginator page by page gives: calling [next_page] until it yields no
    page, [Ok] of the concatenation of all pages' items in page order when
    every fetch succeeded, or exactly the error of the first failing
    fetch, with no accumulated items; that error is the one [fetch_page]
    returned, unchanged. *)
Theorem all_pages_concat_or_first_error {T R W : Type} `{PaginationInfo T R}
    (fetch_page : W -> PaginationParams -> W * VeniceResult (R * RateLimitInfo))
    (fuel : nat) (p p' : GenericPaginator) (w w' : W)
    (r : VeniceResult (list T)) (l : list PaginationParams)
    (Hrun : all_pages fetch_page fuel p w = Some (r, p', w', l)) :
  exists rd,
    drain_pages fetch_page (S fuel) p w = Some (rd, p', w', l)
    /\ r = match rd with
           | Ok pages => Ok (items_of pages)
           | Err e => Err e
           end
    /\ (forall e, rd = Err e ->
        exists q wq, snd (fetch_page wq (params q)) = Err e).
Proof.
  destruct (all_pages_loop_drain fetch_page fuel [] p w [] r p' w' l Hrun)
    as (rd & l0 & Hd & Hl & Hr).
  simpl in Hl. subst l0.
  exists rd. split; [exact Hd | split; [exact Hr |]].
  intros e He. subst rd. clear Hrun Hr.
  revert p w l Hd. induction (S fuel) as [| n IHn]; intros q wq lq Hd; [discriminate |].
  simpl in Hd.
  destruct (next_page fetch_page q wq) as [[[r1 q1] w1] l1] eqn:E.
  destruct r1 as [[page |] | e1].
  - destruct (drain_pages fetch_page n q1 w1) as [[[[[pages | e2] q2] w2] l2] |] eqn:Ed;
      try discriminate.
    inversion Hd; subst. exact (IHn q1 w1 _ Ed).
  - discriminate.
  - inversion Hd; subst.
    exists q, wq. exact (proj1 (next_page_error fetch_page _ _ _ _ _ _ E)).
Qed.

(** The C7 theorem on [mock_fetch] (all three pages, items in page order)
    and on [mock_fetch_fail] (the 503 of the second fetch, no items). *)
Lemma all_pages_concat_or_first_error_witness :
  let log_ok := [params mock_start; {| limit := Some 2%Z; cursor := Some "c1" |};
                 params mock_p2] in
  let p_fail := {| params := {| limit := Some 2%Z; cursor := Some "c1" |};
                   has_more := true |} in
  let log_fail := [params mock_start; params p_fail] in
  let e503 := ApiError 503 "unavailable" "try later" in
  all_pages mock_fetch 10 mock_start 0%nat = Some (Ok [1; 2; 3; 4; 5], mock_p3, 3%nat, log_ok)
  /\ (exists rd,
        drain_pages mock_fetch 11 mock_start 0%nat = Some (rd, mock_p3, 3%nat, log_ok)
        /\ Ok [1; 2; 3; 4; 5] = match rd with
                                | Ok pages => Ok (items_of pages)
                                | Err e => Err e
                                end
        /\ (forall e, rd = Err e ->
            exists q wq, snd (mock_fetch wq (params q)) = Err e))
  /\ all_pages mock_fetch_fail 10 mock_start 0%nat = Some (Err e503, p_fail, 2%nat, log_fail)
  /\ (exists rd,
        drain_pages mock_fetch_fail 11 mock_start 0%nat = Some (rd, p_fail, 2%nat, log_fail)
        /\ Err e503 = match rd with
                      | Ok pages => Ok (items_of pages)
                      | Err e => Err e
                      end
        /\ (forall e, rd = Err e ->
            exists q wq, snd (mock_fetch_fail wq (params q)) = Err e)).
Proof.
  cbv zeta.
  split; [reflexivity | split; [| split; [reflexivity |]]].
  - apply all_pages_concat_or_first_error. reflexivity.
  - apply all_pages_concat_or_first_error. reflexivity.
Defined.

(** * C4 and C5: the streaming decoder *)

(** Strings. *)

Lemma str_app_assoc (a b c : string) : (a ++ b) ++ c = a ++ (b ++ c).
Proof. induction a as [| x a IH]; simpl; [reflexivity | rewrite IH; reflexivity]. Qed.

Lemma str_app_nil_r (a : string) : a ++ EmptyString = a.
Proof. induction a as [| x a IH]; simpl; [reflexivity | rewrite IH; reflexivity]. Qed.

Lemma str_length_app (a b : string) : String.length (a ++ b) = (String.length a + String.length b)%nat.
Proof. induction a as [| x a IH]; simpl; [reflexivity | rewrite IH; reflexivity]. Qed.

Lemma no_line_break_app (a b : string) :
  no_line_break (a ++ b) = no_line_break a && no_line_break b.
Proof.
  unfold no_line_break. induction a as [| x a IH]; simpl; [reflexivity |].
  rewrite IH. apply andb_assoc.
Qed.

Lemma split_lines_app_no_lf (s t cur : string) :
  no_line_break s = true -> split_lines (s ++ t) cur = split_lines t (cur ++ s).
Proof.
  revert cur. induction s as [| c s IH]; intros cur Hs; simpl.
  - rewrite str_app_nil_r. reflexivity.
  - unfold no_line_break in Hs. simpl in Hs.
    apply andb_true_iff in Hs as [Hc Hs]. apply andb_true_iff in Hc as [Hlf _].
    apply negb_true_iff in Hlf. rewrite Hlf.
    rewrite IH by exact Hs. rewrite str_app_assoc. reflexivity.
Qed.

Lemma get_in (n : nat) (s : string) (c : ascii) :
  String.get n s = Some c -> In c (list_ascii_of_string s).
Proof.
  revert n. induction s as [| x s IH]; intros n H; [discriminate |].
  destruct n as [| n]; simpl in H.
  - inversion H. left. reflexivity.
  - right. exact (IH n H).
Qed.

Lemma strip_cr_no_cr (s : string) : no_line_break s = true -> strip_cr s = s.
Proof.
  intros Hs. unfold strip_cr.
  destruct (String.length s) as [| n]; [reflexivity |].
  destruct (String.get n s) as [c |] eqn:E; [| reflexivity].
  apply get_in in E. unfold no_line_break in Hs.
  rewrite forallb_forall in Hs. specialize (Hs c E).
  apply andb_true_iff in Hs as [_ Hcr]. apply negb_true_iff in Hcr.
  destruct c as [[] [] [] [] [] [] [] []]; try reflexivity; discriminate.
Qed.

Lemma prefix_app (a b : string) : String.prefix a (a ++ b) = true.
Proof.
  induction a as [| x a IH]; simpl; [destruct b; reflexivity |].
  destruct (ascii_dec x x) as [_ | n]; [exact IH | contradiction n; reflexivity].
Qed.

Lemma substring_all (b : string) : String.substring 0 (String.length b) b = b.
Proof. induction b as [| x b IH]; simpl; [reflexivity | rewrite IH; reflexivity]. Qed.

Lemma substring_app (a b : string) :
  String.substring (String.length a) (String.length b) (a ++ b) = b.
Proof.
  induction a as [| x a IH]; simpl; [apply substring_all |].
  destruct (String.length b) eqn:E.
  - destruct b; [| discriminate]. rewrite str_app_nil_r in *. exact IH.
  - exact IH.
Qed.

Lemma trim_data_prefix (j : string) :
  String.prefix data_prefix j = false ->
  trim_start_matches data_prefix (data_prefix ++ j) = j.
Proof.
  intros Hj. unfold trim_start_matches.
  rewrite str_length_app.
  cbn [trim_start_matches_aux]. rewrite prefix_app.
  rewrite str_length_app.
  replace (String.length data_prefix + String.length j - String.length data_prefix)%nat
    with (String.length j) by lia.
  rewrite substring_app.
  change (String.length data_prefix) with 6%nat.
  cbn [Nat.add trim_start_matches_aux]. rewrite Hj. reflexivity.
Qed.

Lemma utf8_check_none_any_idx (n : nat) :
  forall s i k, (String.length s <= n)%nat -> utf8_check s i = None -> utf8_check s k = None.
Proof.
  induction n as [| n IH]; intros s i k Hlen H.
  - destruct s; [reflexivity | simpl in Hlen; lia].
  - destruct s as [| c0 r0]; [reflexivity |].
    simpl in H |- *.
    repeat match goal with
    | H : context [match ?r with EmptyString => _ | String _ _ => _ end] |- _ =>
        destruct r; [try discriminate |]
    | H : context [if ?c then _ else _] |- _ => destruct c; [| try discriminate]
    end.
    all: try discriminate.
    all: eapply IH; [| exact H]; simpl in Hlen |- *; lia.
Qed.

(** UTF-8 validity of a concatenation. *)

Lemma utf8_check_app_none (n : nat) :
  forall a b i k m, (String.length a <= n)%nat ->
    utf8_check a i = None -> utf8_check b k = None -> utf8_check (a ++ b) m = None.
Proof.
  induction n as [| n IH]; intros a b i k m Hlen Ha Hb.
  - destruct a; [| simpl in Hlen; lia].
    exact (utf8_check_none_any_idx (String.length b) b k m (le_n _) Hb).
  - destruct a as [| c0 r0];
      [exact (utf8_check_none_any_idx (String.length b) b k m (le_n _) Hb) |].
    simpl in Ha |- *.
    repeat match goal with
    | H : context [if ?c then _ else _] |- _ => destruct c; [| try discriminate]
    | H : context [match ?r with EmptyString => _ | String _ _ => _ end] |- _ =>
        destruct r; cbn [String.append] in H |- *; [try discriminate |]
    end.
    all: try discriminate.
    all: first
      [ exact (utf8_check_none_any_idx (String.length b) b k _ (le_n _) Hb)
      | eapply IH; [| exact Ha | exact Hb]; simpl in Hlen |- *; lia ].
Qed.

Lemma scan_lines_skips_done {T : Type} (pc : string -> result T string) (ls : list string) :
  forall res, scan_lines pc ls res
              = scan_lines pc (filter (fun l => negb (is_done_line l)) ls) res.
Proof.
  induction ls as [| l ls IH]; intros res; [reflexivity |].
  cbn [filter]. destruct (is_done_line l) eqn:E; cbn [negb scan_lines].
  - unfold is_done_line in E. apply andb_true_iff in E as [E1 E2].
    rewrite E1, E2. apply IH.
  - destruct (String.prefix data_prefix l); [| apply IH].
    destruct (String.eqb (trim_start_matches data_prefix l) done_marker); [apply IH |].
    destruct (pc (trim_start_matches data_prefix l)); [apply IH | reflexivity].
Qed.

Lemma lines_event_then_done (j : string) :
  no_line_break j = true ->
  lines (sse_event j ++ sse_event done_marker)
  = [data_prefix ++ j; EmptyString; data_prefix ++ done_marker; EmptyString].
Proof.
  intros Hj.
  assert (Hp : no_line_break (data_prefix ++ j) = true)
    by (rewrite no_line_break_app, Hj; reflexivity).
  unfold lines, sse_event.
  rewrite !str_app_assoc.
  rewrite <- (str_app_assoc data_prefix j).
  rewrite split_lines_app_no_lf by exact Hp.
  simpl.
  change (String "d" (String "a" (String "t" (String "a" (String ":" (String " " j))))))
    with (data_prefix ++ j).
  rewrite (strip_cr_no_cr _ Hp). reflexivity.
Qed.

Lemma event_then_done_decodes {T : Type} (pc : string -> result T string) (j : string) (v : T) :
  from_utf8 j = Ok j -> no_line_break j = true ->
  String.prefix data_prefix j = false -> j <> done_marker -> pc j = Ok v ->
  decode_stream pc [Ok (sse_event j ++ sse_event done_marker)] = [Ok v].
Proof.
  intros Hu Hlb Hpre Hdone Hpc.
  assert (Hv : utf8_check (sse_event j ++ sse_event done_marker) 0 = None).
  { unfold from_utf8 in Hu.
    destruct (utf8_check j 0) as [[x [y |]] |] eqn:Ej; try discriminate.
    unfold sse_event.
    rewrite !str_app_assoc.
    apply (utf8_check_app_none _ data_prefix _ 0 0 _ (le_n _)); [reflexivity |].
    apply (utf8_check_app_none _ j _ 0 0 _ (le_n _) Ej). reflexivity. }
  cbn [decode_stream]. unfold process_chunk, from_utf8. rewrite Hv.
  rewrite (lines_event_then_done j Hlb).
  cbn [scan_lines].
  rewrite prefix_app, (trim_data_prefix j Hpre).
  apply String.eqb_neq in Hdone. rewrite Hdone, Hpc.
  reflexivity.
Qed.

(** The decoded stream of consecutive reads is the concatenation of the
    streams of each. *)
Lemma decode_stream_app {T : Type} (pc : string -> result T string) (a b : list (result string string)) :
  decode_stream pc (a ++ b)%list = (decode_stream pc a ++ decode_stream pc b)%list.
Proof.
  induction a as [| rd a IH]; [reflexivity |].
  cbn [decode_stream List.app]. rewrite IH.
  destruct (filter_no_data _); reflexivity.
Qed.

(** A read holding one event decodes to its chunk. *)
Lemma event_decodes {T : Type} (pc : string -> result T string) (j : string) (v : T) :
  from_utf8 j = Ok j -> no_line_break j = true ->
  String.prefix data_prefix j = false -> j <> done_marker -> pc j = Ok v ->
  decode_stream pc [Ok (sse_event j)] = [Ok v].
Proof.
  intros Hu Hlb Hpre Hdone Hpc.
  assert (Hp : no_line_break (data_prefix ++ j) = true)
    by (rewrite no_line_break_app, Hlb; reflexivity).
  assert (Hv : utf8_check (sse_event j) 0 = None).
  { unfold from_utf8 in Hu.
    destruct (utf8_check j 0) as [[x [y |]] |] eqn:Ej; try discriminate.
    unfold sse_event.
    apply (utf8_check_app_none _ data_prefix _ 0 0 _ (le_n _)); [reflexivity |].
    apply (utf8_check_app_none _ j _ 0 0 _ (le_n _) Ej). reflexivity. }
  assert (Hl : lines (sse_event j) = [data_prefix ++ j; EmptyString]).
  { unfold lines, sse_event.
    rewrite <- (str_app_assoc data_prefix j).
    rewrite split_lines_app_no_lf by exact Hp.
    simpl.
    change (String "d" (String "a" (String "t" (String "a" (String ":" (String " " j))))))
      with (data_prefix ++ j).
    rewrite (strip_cr_no_cr _ Hp). reflexivity. }
  cbn [decode_stream]. unfold process_chunk, from_utf8. rewrite Hv, Hl.
  cbn [scan_lines].
  rewrite prefix_app, (trim_data_prefix j Hpre).
  apply String.eqb_neq in Hdone. rewrite Hdone, Hpc.
  reflexivity.
Qed.

(** A read holding only the end-of-stream event yields no item. *)
Lemma done_event_dropped {T : Type} (pc : string -> result T string) :
  decode_stream pc [Ok (sse_event done_marker)] = [].
Proof. reflexivity. Qed.

(** Counterexample to claim C4: the [data: [DONE]] line does not end the
    sequence (an event after it, in the same read or in a later one, is
    still decoded), and a sentinel split across two reads is surfaced as an
    error item. *)
Lemma C4_done_does_not_end_stream :
  decode_stream mock_parse_chunk [Ok (sse_event done_marker ++ sse_event "{b}")] = [Ok "{b}"]
  /\ decode_stream mock_parse_chunk [Ok (sse_event done_marker); Ok (sse_event "{b}")]
     = [Ok "{b}"]
  /\ decode_stream mock_parse_chunk [Ok "data: [DO"; Ok ("NE]" ++ lf ++ lf)] = [Err json_error].
Proof. vm_compute. repeat split; reflexivity. Qed.

(** Claim C4 (amended): within one byte read, a line that reads
    [data: [DONE]] once its leading ["data: "] prefixes are trimmed is
    skipped: the read decodes as if the line were not there, so it yields no
    item and the lines after it are still decoded. The input
    ["data: j\n\ndata: [DONE]\n\n"], for a payload [j] on one line, valid
    UTF-8, accepted by the JSON parser as the chunk [v], delivered in one read
    or as one read per event, yields exactly [v] and then the sequence ends
    without error. *)
Theorem done_line_skipped_within_read {T : Type} (pc : string -> result T string) :
  (forall ls res,
     scan_lines pc ls res = scan_lines pc (filter (fun l => negb (is_done_line l)) ls) res)
  /\ (forall j v,
       from_utf8 j = Ok j -> no_line_break j = true ->
       String.prefix data_prefix j = false -> j <> done_marker -> pc j = Ok v ->
       decode_stream pc [Ok (sse_event j ++ sse_event done_marker)] = [Ok v]
       /\ decode_stream pc [Ok (sse_event j); Ok (sse_event done_marker)] = [Ok v]).
Proof.
  split; [intros ls res; apply scan_lines_skips_done |].
  intros j v Hu Hlb Hpre Hdone Hpc. split.
  - exact (event_then_done_decodes pc j v Hu Hlb Hpre Hdone Hpc).
  - change [@Ok string string (sse_event j); Ok (sse_event done_marker)]
      with ([@Ok string string (sse_event j)] ++ [Ok (sse_event done_marker)])%list.
    rewrite decode_stream_app, (event_decodes pc j v Hu Hlb Hpre Hdone Hpc),
      done_event_dropped.
    reflexivity.
Qed.

(** The amended C4 statement on the payload ["{}"]. *)
Lemma done_line_skipped_within_read_witness :
  from_utf8 "{}" = Ok "{}" /\ no_line_break "{}" = true
  /\ String.prefix data_prefix "{}" = false /\ "{}" <> done_marker
  /\ mock_parse_chunk "{}" = Ok "{}"
  /\ decode_stream mock_parse_chunk [Ok (sse_event "{}" ++ sse_event done_marker)] = [Ok "{}"]
  /\ decode_stream mock_parse_chunk [Ok (sse_event "{}"); Ok (sse_event done_marker)]
     = [Ok "{}"].
Proof.
  assert (Hne : "{}" <> done_marker) by discriminate.
  split; [reflexivity | split; [reflexivity | split; [reflexivity | split; [exact Hne |]]]].
  split; [reflexivity |].
  exact (proj2 (done_line_skipped_within_read mock_parse_chunk) "{}" "{}"
           eq_refl eq_refl eq_refl Hne eq_refl).
Defined.

(** Claim C5 (code bug): the decoder keeps only the last [data: ] line of
    each byte read. Three events and the sentinel in one read, the body of
    the crate's own streaming test which expects three chunks, yield the
    third chunk alone; a parse failure also drops the lines after it in the
    read, and an event split across two reads becomes an error item. Only
    one event per read decodes each event once, in order. *)
Theorem stream_decoder_keeps_last_line_per_read :
  decode_stream mock_parse_chunk
    [Ok (sse_event "{1}" ++ sse_event "{2}" ++ sse_event "{3}" ++ sse_event done_marker)]
    = [Ok "{3}"]
  /\ decode_stream mock_parse_chunk
       [Ok (sse_event "{1}"); Ok (sse_event "{2}"); Ok (sse_event "{3}");
        Ok (sse_event done_marker)]
     = [Ok "{1}"; Ok "{2}"; Ok "{3}"]
  /\ decode_stream mock_parse_chunk [Ok (sse_event "oops" ++ sse_event "{2}")]
     = [Err json_error]
  /\ decode_stream mock_parse_chunk [Ok "data: {1"; Ok ("}" ++ lf ++ lf)]
     = [Err json_error].
Proof. vm_compute. repeat split; reflexivity. Qed.

(** * C9: joining the base URL and the endpoint *)

(** Claim C9 (code bug): [build_url] adds a ["/"] only when the base lacks a
    trailing one and the endpoint lacks a leading one; it never removes one.
    The two examples of the claim join with one slash, but a base ending in
    ["/"] and an endpoint starting with ["/"] give ["//"], which the string
    handed to [Url::parse] keeps. *)
Theorem build_url_double_slash :
  build_url_str "https://api.example.com/v1" "models" = "https://api.example.com/v1/models"
  /\ build_url_str "https://api.example.com/v1" "/models" = "https://api.example.com/v1/models"
  /\ build_url_str "https://api.example.com/v1/" "models" = "https://api.example.com/v1/models"
  /\ build_url_str "https://api.example.com/v1/" "/models"
     = "https://api.example.com/v1//models".
Proof. vm_compute. repeat split; reflexivity. Qed.

(** * Further properties of the code *)

Lemma digit_val_of_digit (d : Z) :
  (0 <= d < 10)%Z -> digit_val (ascii_of_N (Z.to_N (48 + d))) = Some d.
Proof.
  intros Hd.
  assert (d = 0 \/ d = 1 \/ d = 2 \/ d = 3 \/ d = 4 \/ d = 5 \/ d = 6 \/ d = 7
          \/ d = 8 \/ d = 9)%Z as Hc by lia.
  repeat destruct Hc as [-> | Hc]; try reflexivity; subst; reflexivity.
Qed.

Lemma digit_val_range (c : ascii) (d : Z) : digit_val c = Some d -> (0 <= d < 10)%Z.
Proof.
  unfold digit_val. destruct (Z.leb_spec 48 (Z.of_N (N_of_ascii c))),
    (Z.leb_spec (Z.of_N (N_of_ascii c)) 57); simpl; intros H'; inversion H'; lia.
Qed.

Lemma parse_digits_dec_aux (fuel : nat) :
  forall n acc a, (0 <= n < 10 ^ Z.of_nat fuel)%Z ->
    exists k, (0 <= k)%Z /\ (n < 10 ^ k)%Z
      /\ parse_digits (dec_aux fuel n acc) a = parse_digits acc (a * 10 ^ k + n).
Proof.
  induction fuel as [| f IH]; intros n acc a Hn.
  - simpl in Hn. exists 0%Z. simpl. split; [lia | split; [lia |]].
    replace n with 0%Z by lia. f_equal. lia.
  - rewrite Nat2Z.inj_succ, Z.pow_succ_r in Hn by lia.
    pose proof (Z.mod_pos_bound n 10 ltac:(lia)) as Hm.
    pose proof (Z.div_mod n 10 ltac:(lia)) as Hdm.
    cbn [dec_aux].
    destruct (Z.ltb_spec n 10) as [Hlt | Hge].
    + exists 1%Z. split; [lia | split; [lia |]].
      cbn [parse_digits]. rewrite digit_val_of_digit by exact Hm.
      rewrite Z.mod_small by lia. try (f_equal; lia).
    + destruct (IH (n / 10)%Z
                  (String (ascii_of_N (Z.to_N (48 + n mod 10))) acc) a)
        as (k & Hk & Hkn & Hp).
      { split; [apply Z.div_pos; lia | apply Z.div_lt_upper_bound; lia]. }
      exists (k + 1)%Z. split; [lia | split].
      * rewrite Z.pow_add_r by lia. lia.
      * rewrite Hp. cbn [parse_digits]. rewrite digit_val_of_digit by exact Hm.
        f_equal. rewrite Z.pow_add_r by lia. lia.
Qed.

Lemma dec_aux_head (f : nat) :
  forall n acc, exists c r d, dec_aux (S f) n acc = String c r /\ digit_val c = Some d.
Proof.
  induction f as [| f IH]; intros n acc.
  - cbn [dec_aux]. destruct (Z.ltb n 10); eexists _, _, _; split; try reflexivity;
      apply digit_val_of_digit; apply Z.mod_pos_bound; lia.
  - cbn [dec_aux]. destruct (Z.ltb n 10).
    + eexists _, _, _; split; [reflexivity |].
      apply digit_val_of_digit; apply Z.mod_pos_bound; lia.
    + apply IH.
Qed.

Lemma parse_unsigned_digit_head (bound : Z) (c : ascii) (r : string) (d : Z) :
  digit_val c = Some d ->
  parse_unsigned bound (String c r)
  = match parse_digits (String c r) 0 with
    | Some v => if Z.ltb v bound then Some v else None
    | None => None
    end.
Proof.
  intros Hc. destruct c as [[] [] [] [] [] [] [] []]; try reflexivity; discriminate.
Qed.

Lemma visible_ascii_dec_aux (f : nat) :
  forall n acc, (0 <= n)%Z -> visible_ascii (dec_aux f n acc) = visible_ascii acc.
Proof.
  assert (Hd : forall d acc, (0 <= d < 10)%Z ->
     visible_ascii (String (ascii_of_N (Z.to_N (48 + d))) acc) = visible_ascii acc).
  { intros d acc Hd.
    assert (d = 0 \/ d = 1 \/ d = 2 \/ d = 3 \/ d = 4 \/ d = 5 \/ d = 6 \/ d = 7
            \/ d = 8 \/ d = 9)%Z as Hc by lia.
    repeat destruct Hc as [-> | Hc]; try reflexivity; subst; reflexivity. }
  induction f as [| f IH]; intros n acc Hn; [reflexivity |].
  pose proof (Z.mod_pos_bound n 10 ltac:(lia)) as Hm.
  cbn [dec_aux]. destruct (Z.ltb n 10).
  - apply Hd, Hm.
  - rewrite IH by (apply Z.div_pos; lia). apply Hd, Hm.
Qed.

Lemma parse_unsigned_dec (bound n : Z) :
  (0 <= n < 10 ^ 24)%Z ->
  parse_unsigned bound (dec n) = if Z.ltb n bound then Some n else None.
Proof.
  intros Hn. unfold dec.
  destruct (dec_aux_head 23 n EmptyString) as (c & r & d & Hcr & Hc).
  destruct (parse_digits_dec_aux 24 n EmptyString 0 ltac:(simpl; lia)) as (k & _ & _ & Hp).
  rewrite Hcr in *. rewrite (parse_unsigned_digit_head bound c r d Hc), Hp.
  reflexivity.
Qed.

Lemma parse_digits_nonneg (s : string) :
  forall a v, (0 <= a)%Z -> parse_digits s a = Some v -> (0 <= v)%Z.
Proof.
  induction s as [| c s IH]; intros a v Ha H; simpl in H.
  - inversion H; lia.
  - destruct (digit_val c) as [d |] eqn:Ed; [| discriminate].
    apply digit_val_range in Ed. eapply IH; [| exact H]. lia.
Qed.

Lemma parse_unsigned_range (bound : Z) (s : string) (v : Z) :
  parse_unsigned bound s = Some v -> (0 <= v < bound)%Z.
Proof.
  unfold parse_unsigned.
  set (digits := match s with String "+"%char r => r | _ => s end).
  destruct digits as [| c r]; [discriminate |].
  destruct (parse_digits (String c r) 0) as [v' |] eqn:E; [| discriminate].
  destruct (Z.ltb_spec v' bound); intros Hs; inversion Hs; subst.
  apply parse_digits_nonneg in E; lia.
Qed.

(** X1: a rate-limit header whose value is the decimal text of n < 2^64 is parsed back to n as a u64, and as a u32 exactly when n < 2^32 (a larger value reads as absent). *)
Theorem parse_header_decimal_round_trip (h : HeaderMap) (name : string) (n : Z)
    (Hh : header_get h name = Some (dec n)) (Hn : (0 <= n < two_pow 64)%Z) :
  parse_header parse_u64 h name = Some n
  /\ parse_header parse_u32 h name = if Z.ltb n (two_pow 32) then Some n else None.
Proof.
  assert (Hv : header_to_str (dec n) = Some (dec n)).
  { unfold header_to_str, dec. rewrite visible_ascii_dec_aux by lia. reflexivity. }
  assert (H24 : (0 <= n < 10 ^ 24)%Z) by (unfold two_pow in Hn; lia).
  unfold parse_header, parse_u64, parse_u32. rewrite Hh, Hv.
  rewrite !parse_unsigned_dec by exact H24.
  assert (Hn' : (n <? two_pow 64)%Z = true) by (apply Z.ltb_lt; lia).
  rewrite Hn'. split; reflexivity.
Qed.

(** X2: every integer field of the snapshot [from_headers] builds lies in the range of its Rust type (u32 limits and counts, u64 resets), whatever the headers. *)
Theorem from_headers_in_range (pf : string -> option float) (h : HeaderMap) :
  info_in_range (from_headers pf h) = true.
Proof.
  assert (Hp : forall bound name, (0 < bound)%Z ->
            opt_in (fun x => Z.leb 0 x && Z.ltb x bound)
              (parse_header (parse_unsigned bound) h name) = true).
  { intros bound name Hb. unfold parse_header.
    destruct (header_get h name) as [v |]; [| reflexivity].
    destruct (header_to_str v) as [s |]; [| reflexivity].
    destruct (parse_unsigned bound s) as [x |] eqn:E; [| reflexivity].
    apply parse_unsigned_range in E. simpl.
    apply andb_true_iff; split; [apply Z.leb_le | apply Z.ltb_lt]; lia. }
  unfold info_in_range, from_headers, in_u32, in_u64, parse_u32, parse_u64. simpl.
  rewrite !Hp by (unfold two_pow; lia). reflexivity.
Qed.

(** X3: a snapshot that reports itself rate limited ([RateLimitInfo::is_rate_limited]) leaves the limiter rate limited after [update_from_response]; when it carries both remaining counts the two verdicts agree. *)
Theorem info_rate_limited_blocks_limiter (c : Clock) (i : RateLimitInfo) (s : RateLimiter.t) :
  (info_is_rate_limited i = true ->
   RateLimiter.is_rate_limited (RateLimiter.update_from_response c i s) = true)
  /\ (remaining_requests i <> None -> remaining_tokens i <> None ->
      RateLimiter.is_rate_limited (RateLimiter.update_from_response c i s)
      = info_is_rate_limited i).
Proof.
  destruct (update_fields c i s) as (_ & Hrr & _ & _ & Hrt & _).
  unfold RateLimiter.is_rate_limited, info_is_rate_limited. rewrite Hrr, Hrt.
  split.
  - destruct (remaining_requests i) as [r |], (remaining_tokens i) as [t |]; simpl;
      intros H; try discriminate;
      repeat match goal with
      | H : (_ || _) = true |- _ => apply orb_true_iff in H as [H | H]
      end;
      try (rewrite H; reflexivity); try (rewrite H, orb_true_r; reflexivity);
      discriminate.
  - intros Hr Ht.
    destruct (remaining_requests i) as [r |]; [| contradiction].
    destruct (remaining_tokens i) as [t |]; [| contradiction].
    reflexivity.
Qed.

Lemma wrap_i64_range (x : Z) : in_i64 (wrap_i64 x) = true.
Proof.
  unfold in_i64, wrap_i64, two_pow.
  pose proof (Z.mod_pos_bound x (2 ^ 64)) as Hm.
  destruct (Z.ltb_spec (x mod 2 ^ 64) (2 ^ 63)); apply andb_true_iff; split;
    first [apply Z.leb_le | apply Z.ltb_lt]; lia.
Qed.

Lemma wrap_i64_id (x : Z) : (- two_pow 63 <= x < two_pow 63)%Z -> wrap_i64 x = x.
Proof.
  unfold wrap_i64, two_pow; intros H.
  destruct (Z.leb_spec 0 x).
  - rewrite Z.mod_small by lia.
    destruct (Z.ltb_spec x (2 ^ 63)); lia.
  - replace (x mod 2 ^ 64)%Z with (x + 2 ^ 64)%Z.
    + destruct (Z.ltb_spec (x + 2 ^ 64) (2 ^ 63)); lia.
    + rewrite <- (Z.mod_small (x + 2 ^ 64) (2 ^ 64)) by lia.
      rewrite Z.add_mod, Z.mod_same, Z.add_0_r, Z.mod_mod by lia. reflexivity.
Qed.

Lemma wrap_u64_id (x : Z) : (0 <= x < two_pow 64)%Z -> wrap_u64 x = x.
Proof. unfold wrap_u64; intros H; apply Z.mod_small; lia. Qed.

Lemma in_u32_opt (o : option Z) (d : Z) :
  opt_in in_u32 o = true -> in_u32 d = true -> in_u32 (unwrap_or o d) = true.
Proof. destruct o; simpl; auto. Qed.

Lemma in_i64_opt (o : option Z) (d : Z) :
  opt_in in_i64 o = true -> in_i64 d = true -> in_i64 (unwrap_or o d) = true.
Proof. destruct o; simpl; auto. Qed.

Lemma update_in_range (c : Clock) (i : RateLimitInfo) (s : RateLimiter.t) :
  info_in_range i = true -> limiter_in_range s = true ->
  limiter_in_range (RateLimiter.update_from_response c i s) = true.
Proof.
  intros Hi Hs.
  destruct (update_fields c i s) as (H1 & H2 & H3 & H4 & H5 & H6 & _).
  unfold limiter_in_range in *; unfold info_in_range in Hi.
  rewrite H1, H2, H3, H4, H5, H6.
  repeat rewrite andb_true_iff in Hi, Hs |- *.
  destruct Hi as (((((Hi1 & Hi2) & _) & Hi4) & Hi5) & _).
  destruct Hs as (((((Hs1 & Hs2) & Hs3) & Hs4) & Hs5) & Hs6).
  repeat split; try (apply in_u32_opt; assumption); apply in_i64_opt; try assumption.
  - destruct (reset_requests i); simpl; [apply wrap_i64_range | reflexivity].
  - unfold token_reset_of; simpl; destruct (reset_tokens i), c; simpl;
      first [reflexivity | apply wrap_i64_range].
Qed.

(** X4: a limiter created by [with_config] and fed only snapshots parsed by [from_headers] keeps its counters in u32 range and its reset times in i64 range. *)
Theorem limiter_fed_from_headers_in_range (pf : string -> option float)
    (cfg : RateLimiterConfig) (us : list (Clock * HeaderMap)) :
  limiter_in_range
    (RateLimiter.apply_all (RateLimiter.with_config cfg)
       (map (fun '(c, h) => (c, from_headers pf h)) us)) = true.
Proof.
  unfold RateLimiter.apply_all.
  assert (H0 : limiter_in_range (RateLimiter.with_config cfg) = true)
    by reflexivity.
  revert H0. generalize (RateLimiter.with_config cfg) as s.
  induction us as [| [c h] us IH]; intros s Hs; simpl; [exact Hs |].
  apply IH, update_in_range; [apply from_headers_in_range | exact Hs].
Qed.

Lemma in_i64_bounds (x : Z) : in_i64 x = true -> (- two_pow 63 <= x < two_pow 63)%Z.
Proof. unfold in_i64; rewrite andb_true_iff, Z.leb_le, Z.ltb_lt; lia. Qed.

(** X5: for a clock reading below 2^63 and an in-range limiter, [time_until_reset] returns the positive distance to the earliest reset lying strictly in the future, and [None] exactly when neither reset lies in the future. *)
Theorem time_until_reset_earliest (secs : Z) (s : RateLimiter.t)
    (Hc : (0 <= secs < two_pow 63)%Z) (Hs : limiter_in_range s = true) :
  let rtr := RateLimiter.reset_time_requests s in
  let rtt := RateLimiter.reset_time_tokens s in
  (forall d, RateLimiter.time_until_reset (Some secs) s = Some d ->
     (0 < d)%Z /\ (d = rtr - secs \/ d = rtt - secs)%Z
     /\ ((secs < rtr)%Z -> (d <= rtr - secs)%Z)
     /\ ((secs < rtt)%Z -> (d <= rtt - secs)%Z))
  /\ (RateLimiter.time_until_reset (Some secs) s = None <->
      (rtr <= secs)%Z /\ (rtt <= secs)%Z).
Proof.
  intros rtr rtt.
  unfold limiter_in_range in Hs; repeat rewrite andb_true_iff in Hs.
  destruct Hs as (((((_ & _) & Hr) & _) & _) & Ht).
  apply in_i64_bounds in Hr, Ht.
  assert (Hp : (two_pow 64 = 2 * two_pow 63)%Z) by reflexivity.
  assert (Hp0 : (0 < two_pow 63)%Z) by reflexivity.
  unfold RateLimiter.time_until_reset.
  rewrite (wrap_i64_id secs) by lia.
  fold rtr rtt.
  destruct (Z.ltb_spec secs rtr) as [Lr | Lr];
    [rewrite (wrap_i64_id (rtr - secs)), (wrap_u64_id (rtr - secs)) by lia |];
  (destruct (Z.ltb_spec secs rtt) as [Lt | Lt];
    [rewrite (wrap_i64_id (rtt - secs)), (wrap_u64_id (rtt - secs)) by lia |]).
  - split; [| split; [discriminate | lia]].
    intros d Hd; injection Hd as <-.
    destruct (Z.min_spec (rtr - secs) (rtt - secs)); repeat split; lia.
  - split; [| split; [discriminate | lia]].
    intros d Hd; injection Hd as <-; repeat split; lia.
  - split; [| split; [discriminate | lia]].
    intros d Hd; injection Hd as <-; repeat split; lia.
  - split; [intros d Hd; discriminate | split; [intros; lia | reflexivity]].
Qed.

(** X6: if no applied snapshot reports a remaining count of 0, [acquire] on a limiter created by [with_config] succeeds at once without sleeping. *)
Theorem acquire_passes_without_zero_snapshot (cfg : RateLimiterConfig) (clock : Clock)
    (us : list (Clock * RateLimitInfo))
    (Hus : Forall (fun u => remaining_requests (snd u) <> Some 0%Z
                            /\ remaining_tokens (snd u) <> Some 0%Z) us) :
  RateLimiter.acquire clock (RateLimiter.apply_all (RateLimiter.with_config cfg) us)
  = (Ok tt, None).
Proof.
  assert (Hinv : forall s, RateLimiter.remaining_requests s <> 0%Z ->
            RateLimiter.remaining_tokens s <> 0%Z ->
            RateLimiter.remaining_requests (RateLimiter.apply_all s us) <> 0%Z
            /\ RateLimiter.remaining_tokens (RateLimiter.apply_all s us) <> 0%Z).
  { induction Hus as [| [c i] us [Hr Ht] _ IH]; intros s Hs1 Hs2; [split; assumption |].
    apply IH; destruct (update_fields c i s) as (_ & H2 & _ & _ & H5 & _);
      [rewrite H2 | rewrite H5]; simpl in Hr, Ht;
      [destruct (remaining_requests i) | destruct (remaining_tokens i)]; simpl;
      congruence. }
  destruct (Hinv (RateLimiter.with_config cfg)) as [H1 H2]; try discriminate.
  unfold RateLimiter.acquire, RateLimiter.is_rate_limited.
  apply Z.eqb_neq in H1, H2. rewrite H1, H2. reflexivity.
Qed.

(** X7: for a non-2xx status other than 429 with a readable body: a non-JSON body gives [ApiError] with code "unknown" and the body as message; an ["error"] string gives code "api_error"; a JSON object without ["error"] gives the "Unexpected error response" fallback. *)
Theorem process_response_error_classification
    (pf : string -> option float) (pv : string -> option Value)
    (vs : Value -> string) (T : Type) (pj : string -> result T string)
    (r : Response) (text : string)
    (Hst : status r <> 429%Z) (Hfail : is_success (status r) = false)
    (Hbody : body r = Ok text) :
  (pv text = None ->
   process_response pf pv vs T pj r = Err (ApiError (status r) "unknown" text))
  /\ (forall fs m, pv text = Some (VObject fs) -> assoc_get fs "error" = Some (VString m) ->
      process_response pf pv vs T pj r = Err (ApiError (status r) "api_error" m))
  /\ (forall fs, pv text = Some (VObject fs) -> assoc_get fs "error" = None ->
      process_response pf pv vs T pj r
      = Err (ApiError (status r) "unknown" ("Unexpected error response: " ++ text))).
Proof.
  unfold process_response, classify_error_body.
  apply Z.eqb_neq in Hst. rewrite Hst, Hfail, Hbody. simpl.
  split; [| split].
  - intros H; rewrite H; reflexivity.
  - intros fs m H He; rewrite H; simpl; rewrite He; reflexivity.
  - intros fs H He; rewrite H; simpl; rewrite He; reflexivity.
Qed.

(** X8: [process_streaming_response] fails exactly when the status is not 2xx, and then with the same error as [process_binary_response]; on 2xx it returns the decoded stream and the snapshot. *)
Theorem streaming_fails_as_binary
    (pf : string -> option float) (pv : string -> option Value)
    (vs : Value -> string) (ss : Z -> string) (T : Type)
    (pc : string -> result T string) (r : Response) (reads : list (result string string)) :
  (forall e, process_streaming_response pf pv vs ss T pc r reads = Err e <->
             is_success (status r) = false /\ process_binary_response pf pv vs ss r = Err e)
  /\ (is_success (status r) = true ->
      process_streaming_response pf pv vs ss T pc r reads
      = Ok (decode_stream pc reads, from_headers pf (headers r))).
Proof.
  unfold process_streaming_response, process_binary_response.
  destruct (Z.eqb_spec (status r) 429) as [E | E].
  - rewrite E; split; [| discriminate]. intros e; split.
    + intros H; injection H as <-; split; reflexivity.
    + intros [_ H]; injection H as <-; reflexivity.
  - destruct (is_success (status r)); simpl.
    + split; [| reflexivity]. intros e; split; [discriminate |].
      intros [H _]; discriminate.
    + split; [| discriminate]. intros e; split.
      * intros H; injection H as <-; split; reflexivity.
      * intros [_ H]; injection H as <-; reflexivity.
Qed.

(** X9: on a non-2xx response [process_response] and [process_binary_response] return the same error, except when the body is a JSON value without an ["error"] key, where only the fallback message differs. *)
Theorem process_response_binary_same_error
    (pf : string -> option float) (pv : string -> option Value)
    (vs : Value -> string) (ss : Z -> string) (T : Type)
    (pj : string -> result T string) (r : Response)
    (Hfail : is_success (status r) = false) :
  let text := match body r with Ok s => s | Err _ => EmptyString end in
  ((match pv text with Some v => value_get v "error" <> None | None => True end) ->
   exists e, process_response pf pv vs T pj r = Err e
             /\ process_binary_response pf pv vs ss r = Err e)
  /\ (forall v, pv text = Some v -> value_get v "error" = None -> status r <> 429%Z ->
      process_response pf pv vs T pj r
      = Err (ApiError (status r) "unknown" ("Unexpected error response: " ++ text))
      /\ process_binary_response pf pv vs ss r
      = Err (ApiError (status r) "unknown"
               ("Request failed with status: " ++ ss (status r) ++ " - " ++ text))).
Proof.
  intros text.
  unfold process_response, process_binary_response, classify_error_body.
  rewrite Hfail. fold text.
  destruct (Z.eqb_spec (status r) 429) as [E | E].
  - split; [intros _; eexists; split; reflexivity | intros v _ _ C; contradiction].
  - simpl. split.
    + destruct (pv text) as [v |]; [| intros _; eexists; split; reflexivity].
      intros Hv. destruct (value_get v "error"); [| contradiction].
      eexists; split; reflexivity.
    + intros v Hv He _. rewrite Hv, He. split; reflexivity.
Qed.

Lemma wrap_u32_small (x : Z) : (0 <= x < two_pow 32)%Z -> wrap_u32 x = x.
Proof. unfold wrap_u32; intros; apply Z.mod_small; lia. Qed.

Section RetryTrace.
Variable W A : Type.
Variable f : W -> W * VeniceResult A.
Variable cfg : RetryConfig.
Variable draw : Z -> float.
Variable ws : nat -> W.
Variable es : nat -> VeniceError.
Variable j : nat.
Variable w' : W.
Variable r : VeniceResult A.
Hypothesis Hfail : forall i, (i < j)%nat ->
  f (ws i) = (ws (S i), Err (es i)) /\ is_retryable_error (es i) = true.
Hypothesis Hlast : f (ws j) = (w', r).
Hypothesis Hstop : match r with
                   | Ok _ => True
                   | Err e => is_retryable_error e = false
                              \/ (max_retries cfg < Z.of_nat (S j))%Z
                   end.
Hypothesis Hj : (Z.of_nat j <= max_retries cfg)%Z.
Hypothesis Hj32 : (Z.of_nat (S j) < two_pow 32)%Z.

Lemma with_retry_loop_trace (m : nat) : forall k fuel, (k + m = j)%nat -> (m < fuel)%nat ->
  with_retry_loop W A f cfg draw fuel (Z.of_nat k) (ws k) k
    (map (fun i => calculate_delay cfg (Z.of_nat i) (draw (Z.of_nat i))) (seq 1 k))
  = Some (r, w', S j,
          map (fun i => calculate_delay cfg (Z.of_nat i) (draw (Z.of_nat i))) (seq 1 j)).
Proof.
  induction m as [| m IH]; intros k fuel Hk Hf;
    (destruct fuel as [| fuel]; [lia |]); cbn [with_retry_loop].
  - replace k with j by lia. rewrite Hlast.
    destruct r as [x | e]; [reflexivity |].
    rewrite wrap_u32_small by lia.
    replace (Z.of_nat j + 1)%Z with (Z.of_nat (S j)) by lia.
    destruct Hstop as [Hs | Hs].
    + rewrite Hs, orb_true_r. reflexivity.
    + apply Z.ltb_lt in Hs. rewrite Hs. reflexivity.
  - destruct (Hfail k) as [Hk1 Hk2]; [lia |]. rewrite Hk1.
    rewrite wrap_u32_small by lia.
    replace (Z.of_nat k + 1)%Z with (Z.of_nat (S k)) by lia.
    assert (Hm : (max_retries cfg <? Z.of_nat (S k))%Z = false)
      by (apply Z.ltb_ge; lia).
    rewrite Hm, Hk2. simpl orb.
    rewrite <- (IH (S k) fuel) by lia.
    f_equal. rewrite seq_S, map_app. reflexivity.
Qed.
End RetryTrace.

(** X10: if the operation fails j times with retryable errors (j <= max_retries, j + 1 < 2^32) and then succeeds or stops the loop, [with_retry] makes exactly j + 1 calls, returns the last outcome, and sleeps [calculate_delay] for attempts 1..j in order. *)
Theorem with_retry_trace (W A : Type) (f : W -> W * VeniceResult A) (cfg : RetryConfig)
    (draw : Z -> float) (ws : nat -> W) (es : nat -> VeniceError) (j : nat)
    (w' : W) (r : VeniceResult A) (fuel : nat)
    (Hfail : forall i, (i < j)%nat ->
       f (ws i) = (ws (S i), Err (es i)) /\ is_retryable_error (es i) = true)
    (Hlast : f (ws j) = (w', r))
    (Hstop : match r with
             | Ok _ => True
             | Err e => is_retryable_error e = false
                        \/ (max_retries cfg < Z.of_nat (S j))%Z
             end)
    (Hj : (Z.of_nat j <= max_retries cfg)%Z)
    (Hj32 : (Z.of_nat (S j) < two_pow 32)%Z)
    (Hfuel : (j < fuel)%nat) :
  with_retry W A f cfg draw fuel (ws 0%nat)
  = Some (r, w', S j,
          map (fun i => calculate_delay cfg (Z.of_nat i) (draw (Z.of_nat i))) (seq 1 j)).
Proof.
  exact (with_retry_loop_trace W A f cfg draw ws es j w' r Hfail Hlast Hstop
           Hj Hj32 j O fuel ltac:(lia) Hfuel).
Qed.



Lemma filter_no_data_item {T : Type} (r item : VeniceResult T) :
  filter_no_data T r = Some item -> item = r /\ item <> Err (ParseError msg_no_data).
Proof.
  destruct r as [v | e]; simpl.
  - intros H; injection H as <-; split; [reflexivity | discriminate].
  - destruct e; simpl; try (intros H; injection H as <-; split; [reflexivity | discriminate]).
    destruct (String.eqb_spec msg msg_no_data) as [E | E]; [discriminate |].
    intros H; injection H as <-; split; [reflexivity |].
    intros C; injection C as C; contradiction.
Qed.

(** X12: the stream decoder yields at most one item per read, never yields the "No data found in chunk" error, and surfaces every failed read as an [HttpError] item. *)
Theorem decode_stream_shape {T : Type} (pc : string -> result T string)
    (reads : list (result string string)) :
  (List.length (decode_stream pc reads) <= List.length reads)%nat
  /\ ~ In (Err (ParseError msg_no_data)) (decode_stream pc reads)
  /\ (forall e, In (Err e) reads -> In (Err (HttpError e)) (decode_stream pc reads)).
Proof.
  induction reads as [| rd reads (IH1 & IH2 & IH3)]; [simpl; split; [lia | tauto] |].
  cbn [decode_stream].
  destruct rd as [bytes | e0].
  - destruct (filter_no_data T _) as [item |] eqn:Ef.
    + apply filter_no_data_item in Ef as [_ Ei].
      simpl. split; [lia |]. split.
      * intros [C | C]; [apply Ei; congruence | contradiction].
      * intros e [E | E]; [discriminate E | right; apply IH3, E].
    + simpl. split; [lia |]. split; [exact IH2 |].
      intros e [E | E]; [discriminate E | apply IH3, E].
  - simpl. split; [lia |]. split.
    + intros [C | C]; [discriminate C | contradiction].
    + intros e [E | E]; [injection E as <-; left; reflexivity | right; apply IH3, E].
Qed.

Lemma scan_lines_no_data {T : Type} (pc : string -> result T string) (ls : list string) :
  Forall (fun l => String.prefix data_prefix l = false \/ is_done_line l = true) ls ->
  forall res, scan_lines pc ls res = Ok res.
Proof.
  induction 1 as [| l ls Hl _ IH]; intros res; [reflexivity |].
  cbn [scan_lines]. unfold is_done_line in Hl.
  destruct (String.prefix data_prefix l); [| apply IH].
  destruct Hl as [Hl | Hl]; [discriminate |].
  simpl in Hl. rewrite Hl. apply IH.
Qed.

(** X13: a valid UTF-8 read with no [data: ] line other than [data: [DONE]] (keep-alive comments, blank lines) yields no item. *)
Theorem decode_stream_skips_reads_without_data {T : Type} (pc : string -> result T string)
    (chunk : string) (rest : list (result string string))
    (Hutf : utf8_check chunk 0 = None)
    (Hls : Forall (fun l => String.prefix data_prefix l = false \/ is_done_line l = true)
             (lines chunk)) :
  decode_stream pc (Ok chunk :: rest) = decode_stream pc rest.
Proof.
  cbn [decode_stream]. unfold process_chunk, from_utf8. rewrite Hutf.
  rewrite (scan_lines_no_data pc _ Hls None). reflexivity.
Qed.

Lemma prefix_split (pat : string) : forall s, String.prefix pat s = true ->
  s = pat ++ String.substring (String.length pat) (String.length s - String.length pat) s.
Proof.
  induction pat as [| x xs IH]; intros s Hp.
  - simpl. rewrite Nat.sub_0_r. symmetry; apply substring_all.
  - destruct s as [| y ys]; [discriminate |]. simpl in Hp |- *.
    destruct (ascii_dec x y) as [<- | _]; [| discriminate].
    f_equal. apply IH, Hp.
Qed.

(** X14: for a non-empty pattern, [trim_start_matches] removes whole copies of the pattern from the front until the rest no longer starts with it. *)
Theorem trim_start_matches_strips_all (pat s : string) (Hp : pat <> EmptyString) :
  String.prefix pat (trim_start_matches pat s) = false
  /\ exists k, s = fold_right String.append EmptyString (repeat pat k) ++ trim_start_matches pat s.
Proof.
  unfold trim_start_matches.
  assert (Hl : (0 < String.length pat)%nat) by (destruct pat; [contradiction | simpl; lia]).
  generalize (Nat.lt_succ_diag_r (String.length s)).
  generalize (S (String.length s)) as fuel.
  intros fuel; revert s.
  induction fuel as [| f IH]; intros s Hf; [lia |].
  cbn [trim_start_matches_aux].
  destruct (String.prefix pat s) eqn:E.
  - pose proof (prefix_split pat s E) as Hs.
    set (s' := String.substring _ _ s) in *.
    assert (Hlen : (String.length s' < f)%nat).
    { assert (String.length s = String.length pat + String.length s')%nat
        by (rewrite Hs at 1; apply str_length_app). lia. }
    destruct (IH s' Hlen) as [H1 [k Hk]]. split; [exact H1 |].
    exists (S k). simpl. rewrite str_app_assoc, <- Hk. exact Hs.
  - split; [exact E |]. exists O. reflexivity.
Qed.

(** X15: [String::from_utf8] accepts every all-ASCII byte string unchanged. *)
Theorem from_utf8_ascii (s : string)
    (Hs : Forall (fun c => (byte_of c < 128)%Z) (list_ascii_of_string s)) :
  from_utf8 s = Ok s.
Proof.
  unfold from_utf8.
  assert (H : forall idx, utf8_check s idx = None).
  { induction s as [| c r IH]; intros idx; [reflexivity |].
    simpl in Hs; inversion Hs as [| ? ? Hc Hr]; subst.
    cbn [utf8_check]. apply Z.ltb_lt in Hc. rewrite Hc. apply IH, Hr. }
  rewrite H. reflexivity.
Qed.

(** X16: a read whose first byte is a continuation byte, C0, C1 or F5..FF fails UTF-8 decoding at index 0, and that error is surfaced as a stream item. *)
Theorem process_chunk_bad_lead_byte {T : Type} (pc : string -> result T string)
    (c : ascii) (r : string)
    (Hc : (128 <= byte_of c < 194)%Z \/ (245 <= byte_of c)%Z) :
  process_chunk pc (String c r)
  = Err (ParseError "Invalid UTF-8: invalid utf-8 sequence of 1 bytes from index 0")
  /\ forall rest, decode_stream pc (Ok (String c r) :: rest)
     = Err (ParseError "Invalid UTF-8: invalid utf-8 sequence of 1 bytes from index 0")
       :: decode_stream pc rest.
Proof.
  assert (Hp : process_chunk pc (String c r)
    = Err (ParseError "Invalid UTF-8: invalid utf-8 sequence of 1 bytes from index 0")).
  { unfold process_chunk, from_utf8. cbn [utf8_check].
    assert (Hb : (byte_of c <= 255)%Z).
    { unfold byte_of. pose proof (N_ascii_bounded c). lia. }
    unfold in_range.
    destruct (Z.ltb_spec (byte_of c) 128); [lia |].
    destruct (Z.leb_spec 194 (byte_of c)), (Z.leb_spec (byte_of c) 223),
      (Z.leb_spec 224 (byte_of c)), (Z.leb_spec (byte_of c) 239),
      (Z.leb_spec 240 (byte_of c)), (Z.leb_spec (byte_of c) 244);
      simpl; try lia; reflexivity. }
  split; [exact Hp |]. intros rest. cbn [decode_stream]. rewrite Hp. reflexivity.
Qed.

Lemma next_page_keeps_limit {T R W : Type} `{PaginationInfo T R}
    (fp : W -> PaginationParams -> W * VeniceResult (R * RateLimitInfo))
    (p : GenericPaginator) (w : W) :
  let '(_, p', _, l) := next_page fp p w in
  limit (params p') = limit (params p) /\ Forall (fun q => q = params p) l.
Proof.
  unfold next_page. destruct (has_more p); simpl; [| split; [reflexivity | constructor]].
  destruct (fp w (params p)) as [w1 [[resp info] | e]];
    [destruct (next_cursor resp) |]; simpl; split; auto.
Qed.

(** X17: successive [next_page] calls never change the paginator's [limit], and every fetch they make uses that limit. *)
Theorem next_pages_keep_limit {T R W : Type} `{PaginationInfo T R}
    (fp : W -> PaginationParams -> W * VeniceResult (R * RateLimitInfo))
    (k : nat) (p : GenericPaginator) (w : W) :
  let '(_, p', _, log) := next_pages fp k p w in
  limit (params p') = limit (params p)
  /\ Forall (fun q => limit q = limit (params p)) log.
Proof.
  revert p w. induction k as [| k IH]; intros p w; simpl; [split; [reflexivity | constructor] |].
  pose proof (next_page_keeps_limit fp p w) as Hn.
  destruct (next_page fp p w) as [[[r p1] w1] l1].
  specialize (IH p1 w1).
  destruct (next_pages fp k p1 w1) as [[[rs p2] w2] l2].
  destruct Hn as [Hn1 Hn2]; destruct IH as [IH1 IH2].
  split; [congruence |]. apply Forall_app; split.
  - eapply Forall_impl; [| exact Hn2]. intros q ->; reflexivity.
  - eapply Forall_impl; [| exact IH2]. intros q Hq; congruence.
Qed.

Lemma parse_header_decimal_round_trip_witness :
  parse_header parse_u64 hdr_limit_100 "x-ratelimit-limit-requests" = Some 100%Z
  /\ parse_header parse_u32 hdr_limit_100 "x-ratelimit-limit-requests"
     = (if Z.ltb 100 (two_pow 32) then Some 100%Z else None).
Proof.
  apply (parse_header_decimal_round_trip hdr_limit_100 "x-ratelimit-limit-requests" 100);
    [vm_compute; reflexivity | unfold two_pow; lia].
Defined.

Lemma time_until_reset_earliest_witness :
  RateLimiter.time_until_reset (Some 1700000000%Z) limiter_two_resets = Some 50%Z
  /\ (forall d, RateLimiter.time_until_reset (Some 1700000000%Z) limiter_two_resets = Some d ->
        (0 < d)%Z /\ (d = 1700000100 - 1700000000 \/ d = 1700000050 - 1700000000)%Z
        /\ ((1700000000 < 1700000100)%Z -> (d <= 1700000100 - 1700000000)%Z)
        /\ ((1700000000 < 1700000050)%Z -> (d <= 1700000050 - 1700000000)%Z)).
Proof.
  split; [vm_compute; reflexivity |].
  exact (proj1 (time_until_reset_earliest 1700000000 limiter_two_resets
                  ltac:(unfold two_pow; lia) ltac:(vm_compute; reflexivity))).
Defined.

Lemma acquire_passes_without_zero_snapshot_witness :
  RateLimiter.acquire None
    (RateLimiter.apply_all (RateLimiter.with_config default_rate_limiter_config)
       [(None, info_remaining_5); (Some 1700000000%Z, info_empty)])
  = (Ok tt, None).
Proof.
  apply acquire_passes_without_zero_snapshot.
  repeat constructor; simpl; discriminate.
Defined.

Lemma process_response_error_classification_witness :
  process_response no_f64 no_value show_value unit unit_payload response_500_text
  = Err (ApiError 500 "unknown" "upstream timeout").
Proof.
  exact (proj1 (process_response_error_classification no_f64 no_value show_value unit
                  unit_payload response_500_text "upstream timeout"
                  ltac:(discriminate) ltac:(reflexivity) ltac:(reflexivity))
               ltac:(reflexivity)).
Defined.

Lemma process_response_binary_same_error_witness :
  exists e, process_response no_f64 no_value show_value unit unit_payload response_500_text
            = Err e
            /\ process_binary_response no_f64 no_value show_value (fun _ => "500")
                 response_500_text = Err e.
Proof.
  exact (proj1 (process_response_binary_same_error no_f64 no_value show_value
                  (fun _ => "500") unit unit_payload response_500_text ltac:(reflexivity))
               I).
Defined.

Lemma with_retry_trace_witness :
  with_retry nat unit fail_once retry_cfg_no_jitter draw_quarter 5 0%nat
  = Some (Ok tt, 2%nat, 2%nat,
          [calculate_delay retry_cfg_no_jitter 1 (draw_quarter 1)]).
Proof.
  apply (with_retry_trace nat unit fail_once retry_cfg_no_jitter draw_quarter
           (fun i => i) (fun _ => HttpError "connection reset") 1 2 (Ok tt) 5).
  - intros i Hi. replace i with O by lia. split; reflexivity.
  - reflexivity.
  - exact I.
  - vm_compute. discriminate.
  - vm_compute. reflexivity.
  - lia.
Defined.

Lemma decode_stream_skips_reads_without_data_witness :
  decode_stream unit_payload [Ok keepalive_chunk; Ok ("data: {}" ++ lf)]
  = decode_stream unit_payload [Ok ("data: {}" ++ lf)].
Proof.
  apply decode_stream_skips_reads_without_data;
    [vm_compute; reflexivity | vm_compute; repeat constructor].
Defined.

Lemma trim_start_matches_strips_all_witness :
  String.prefix data_prefix (trim_start_matches data_prefix "data: data: [DONE]") = false
  /\ exists k, "data: data: [DONE]"
     = fold_right String.append EmptyString (repeat data_prefix k)
       ++ trim_start_matches data_prefix "data: data: [DONE]".
Proof. apply trim_start_matches_strips_all. discriminate. Defined.

Lemma from_utf8_ascii_witness : from_utf8 "data: {}" = Ok "data: {}".
Proof. apply from_utf8_ascii. vm_compute. repeat constructor; reflexivity. Defined.

Lemma process_chunk_bad_lead_byte_witness :
  process_chunk unit_payload (String "255"%char lf)
  = Err (ParseError "Invalid UTF-8: invalid utf-8 sequence of 1 bytes from index 0").
Proof.
  exact (proj1 (process_chunk_bad_lead_byte unit_payload "255"%char lf
                  ltac:(right; vm_compute; discriminate))).
Defined.
